(** * eris-lavalink: node connections and player sessions

    A shallow embedding of [src/Lavalink.js] (the node connection) and
    [src/Player.js] (the per-guild player), and the properties of the
    reconnect cycle, the outbound command queue and the inbound handlers.

    JavaScript objects become records, the event emitter becomes an
    append-only log of emitted signals, and the runtime's timers and
    [process.nextTick] callbacks become explicit queues carried by the state. *)

From Stdlib Require Import ZArith List String Bool Lia Arith.
Import ListNotations.
Open Scope string_scope.
Open Scope list_scope.
Open Scope Z_scope.

(** ** JSON values *)

(** The values [JSON.parse] can return.  An object keeps its keys in insertion
    order, which is the order [Object.assign] and [JSON.stringify] observe. *)
#[warnings="-register-all"]
Inductive Json : Type :=
| JNull
| JBool (b : bool)
| JNum (n : Z)
| JStr (s : string)
| JArr (items : list Json)
| JObj (fields : list (string * Json)).

Definition Obj : Type := list (string * Json).

Fixpoint lookup (k : string) (o : Obj) : option Json :=
  match o with
  | [] => None
  | (k', v) :: rest => if String.eqb k k' then Some v else lookup k rest
  end.

(** [o[k] = v] on a plain object: an existing key keeps its place. *)
Fixpoint assign (k : string) (v : Json) (o : Obj) : Obj :=
  match o with
  | [] => [(k, v)]
  | (k', v') :: rest =>
      if String.eqb k k' then (k', v) :: rest else (k', v') :: assign k v rest
  end.

(** [Object.assign(target, source)]; an [undefined] source is skipped. *)
Definition Object_assign (target : Obj) (source : option Obj) : Obj :=
  match source with
  | None => target
  | Some src => fold_left (fun acc kv => assign (fst kv) (snd kv) acc) src target
  end.

(** Reading a property that is not built in (such as [op] or [reason]):
    [null.k] throws, a primitive or an array has no such property. *)
Inductive Access : Type :=
| TypeError
| Undefined
| Found (v : Json).

Definition getProp (data : Json) (k : string) : Access :=
  match data with
  | JNull => TypeError
  | JObj fields =>
      match lookup k fields with
      | Some v => Found v
      | None => Undefined
      end
  | _ => Undefined
  end.

(** [a === 'text'] for the result of a property read. *)
Definition strictEqStr (a : Access) (text : string) : bool :=
  match a with
  | Found (JStr s) => String.eqb s text
  | _ => false
  end.

(** How a method call ends: it returns, or an exception leaves it. *)
Inductive Completion : Type :=
| Normal
| Throw.

(** [JSON.stringify] and [JSON.parse] belong to the runtime; [None] stands for
    a thrown exception (a cyclic or BigInt payload, malformed text). *)
Class JSONCodec : Type := {
  JSON_stringify : Json -> option string;
  JSON_parse : string -> option Json
}.

(** ** The node connection, [class Lavalink] *)

Module Lavalink.

Inductive Signal : Type :=
| SigReady
| SigDisconnect
| SigError (err : string)
| SigMessage (data : Json).

(** What the node does to the outside world, in the order it happens. *)
Inductive Effect : Type :=
| Emit (s : Signal)
| NewSocket (sock : nat)
| SetTimeout (timer : nat) (delay : Z)
| ClearTimeout (timer : nat)
| RemoveCloseListener (sock : nat)
| WsClose (sock : nat)
| WsSend (sock : nat) (payload : string).

Record Options : Type := {
  o_host : string;
  o_port : option Z;
  o_region : option string;
  o_numShards : Z;
  o_userId : string;
  o_password : option string;
  o_timeout : option Z
}.

(** A socket created by [connect] that has not yet emitted [close]. *)
Record Socket : Type := {
  sock_id : nat;
  closeListener : bool
}.

(** The object's fields, followed by the runtime state it lives in: the
    sockets that are still alive, the armed timers (every one of them runs
    [reconnect]), the next fresh handles, and the effect log.  The [address]
    text and the headers of the opening request are computed from [host],
    [port], [password], [numShards] and [userId] and are not kept apart. *)
Record t : Type := mk {
  host : string;
  port : Z;
  region : option string;
  userId : string;
  numShards : Z;
  password : string;
  connected : bool;
  draining : bool;
  retries : Z;
  reconnectTimeout : Z;
  reconnectInterval : option nat;
  stats : Json;
  ws : option nat;
  sockets : list Socket;
  timers : list (nat * Z);
  nextSocket : nat;
  nextTimer : nat;
  log : list Effect
}.

Definition set_connected (v : bool) (n : t) : t :=
  mk (host n) (port n) (region n) (userId n) (numShards n) (password n)
     v (draining n) (retries n) (reconnectTimeout n) (reconnectInterval n)
     (stats n) (ws n) (sockets n) (timers n) (nextSocket n) (nextTimer n) (log n).

Definition set_draining (v : bool) (n : t) : t :=
  mk (host n) (port n) (region n) (userId n) (numShards n) (password n)
     (connected n) v (retries n) (reconnectTimeout n) (reconnectInterval n)
     (stats n) (ws n) (sockets n) (timers n) (nextSocket n) (nextTimer n) (log n).

Definition set_retries (v : Z) (n : t) : t :=
  mk (host n) (port n) (region n) (userId n) (numShards n) (password n)
     (connected n) (draining n) v (reconnectTimeout n) (reconnectInterval n)
     (stats n) (ws n) (sockets n) (timers n) (nextSocket n) (nextTimer n) (log n).

Definition set_reconnectInterval (v : option nat) (n : t) : t :=
  mk (host n) (port n) (region n) (userId n) (numShards n) (password n)
     (connected n) (draining n) (retries n) (reconnectTimeout n) v
     (stats n) (ws n) (sockets n) (timers n) (nextSocket n) (nextTimer n) (log n).

Definition set_stats (v : Json) (n : t) : t :=
  mk (host n) (port n) (region n) (userId n) (numShards n) (password n)
     (connected n) (draining n) (retries n) (reconnectTimeout n) (reconnectInterval n)
     v (ws n) (sockets n) (timers n) (nextSocket n) (nextTimer n) (log n).

Definition set_ws (v : option nat) (n : t) : t :=
  mk (host n) (port n) (region n) (userId n) (numShards n) (password n)
     (connected n) (draining n) (retries n) (reconnectTimeout n) (reconnectInterval n)
     (stats n) v (sockets n) (timers n) (nextSocket n) (nextTimer n) (log n).

Definition set_sockets (v : list Socket) (n : t) : t :=
  mk (host n) (port n) (region n) (userId n) (numShards n) (password n)
     (connected n) (draining n) (retries n) (reconnectTimeout n) (reconnectInterval n)
     (stats n) (ws n) v (timers n) (nextSocket n) (nextTimer n) (log n).

Definition set_timers (v : list (nat * Z)) (n : t) : t :=
  mk (host n) (port n) (region n) (userId n) (numShards n) (password n)
     (connected n) (draining n) (retries n) (reconnectTimeout n) (reconnectInterval n)
     (stats n) (ws n) (sockets n) v (nextSocket n) (nextTimer n) (log n).

Definition set_nextSocket (v : nat) (n : t) : t :=
  mk (host n) (port n) (region n) (userId n) (numShards n) (password n)
     (connected n) (draining n) (retries n) (reconnectTimeout n) (reconnectInterval n)
     (stats n) (ws n) (sockets n) (timers n) v (nextTimer n) (log n).

Definition set_nextTimer (v : nat) (n : t) : t :=
  mk (host n) (port n) (region n) (userId n) (numShards n) (password n)
     (connected n) (draining n) (retries n) (reconnectTimeout n) (reconnectInterval n)
     (stats n) (ws n) (sockets n) (timers n) (nextSocket n) v (log n).

Definition set_log (v : list Effect) (n : t) : t :=
  mk (host n) (port n) (region n) (userId n) (numShards n) (password n)
     (connected n) (draining n) (retries n) (reconnectTimeout n) (reconnectInterval n)
     (stats n) (ws n) (sockets n) (timers n) (nextSocket n) (nextTimer n) v.

Definition record (e : Effect) (n : t) : t := set_log (log n ++ [e]) n.

(** *** Runtime primitives *)

(** [this.emit(...)]: the signal goes to the log; the listeners are the
    owner's code. *)
Definition emit (s : Signal) (n : t) : t := record (Emit s) n.

(** [setTimeout(this.reconnect.bind(this), delay)]: arms a timer and returns
    its handle.  A handle is an object, hence truthy whatever its number. *)
Definition setTimeout (delay : Z) (n : t) : nat * t :=
  let h := nextTimer n in
  (h, record (SetTimeout h delay)
        (set_nextTimer (S h) (set_timers (timers n ++ [(h, delay)]) n))).

Definition clearTimeout (h : nat) (n : t) : t :=
  record (ClearTimeout h)
    (set_timers (filter (fun tm => negb (Nat.eqb (fst tm) h)) (timers n)) n).

(** [x || dflt] on an optional number: [undefined] and [0] are falsy. *)
Definition orZ (x : option Z) (dflt : Z) : Z :=
  match x with
  | Some v => if Z.eqb v 0 then dflt else v
  | None => dflt
  end.

(** [x || dflt] on an optional string: [undefined] and [''] are falsy. *)
Definition orStr (x : option string) (dflt : string) : string :=
  match x with
  | Some v => if String.eqb v "" then dflt else v
  | None => dflt
  end.

Definition orNull (x : option string) : option string :=
  match x with
  | Some v => if String.eqb v "" then None else Some v
  | None => None
  end.

Section Methods.
Context {codec : JSONCodec}.

(** [connect()]: a new socket replaces [this.ws]; its open, message, close
    and error listeners are bound to this node. *)
Definition connect (n : t) : t :=
  let s := nextSocket n in
  record (NewSocket s)
    (set_nextSocket (S s)
      (set_sockets (sockets n ++ [{| sock_id := s; closeListener := true |}])
        (set_ws (Some s) n))).

Definition constructor (options : Options) : t :=
  connect
    {| host := o_host options;
       port := orZ (o_port options) 80;
       region := orNull (o_region options);
       userId := o_userId options;
       numShards := o_numShards options;
       password := orStr (o_password options) "youshallnotpass";
       connected := false;
       draining := false;
       retries := 0;
       reconnectTimeout := orZ (o_timeout options) 5000;
       reconnectInterval := None;
       stats := JObj [("players", JNum 0); ("playingPlayers", JNum 0)];
       ws := None;
       sockets := [];
       timers := [];
       nextSocket := O;
       nextTimer := O;
       log := [] |}.

Definition retryInterval (n : t) : Z :=
  let retries := Z.min (retries n - 1) 5 in
  (retries + 5) ^ 2 * 1000.

Definition reconnect (n : t) : t :=
  let interval := retryInterval n in
  let (h, n1) := setTimeout interval n in
  let n2 := set_reconnectInterval (Some h) n1 in
  let n3 := set_retries (retries n2 + 1) n2 in
  connect n3.

Definition removeCloseListener (s : nat) (n : t) : t :=
  record (RemoveCloseListener s)
    (set_sockets
       (map (fun k => if Nat.eqb (sock_id k) s
                      then {| sock_id := sock_id k; closeListener := false |}
                      else k) (sockets n)) n).

Definition destroy (n : t) : t :=
  match ws n with
  | Some s => record (WsClose s) (removeCloseListener s n)
  | None => n
  end.

Definition ready (n : t) : t :=
  let n1 := match reconnectInterval n with
            | Some h => set_reconnectInterval None (clearTimeout h n)
            | None => n
            end in
  let n2 := set_connected true n1 in
  let n3 := set_retries 0 n2 in
  emit SigReady n3.

Definition disconnected (n : t) : t :=
  let n1 := set_connected false n in
  let n2 := match reconnectInterval n1 with
            | None => emit SigDisconnect n1
            | Some _ => n1
            end in
  let n3 := set_ws None n2 in
  match reconnectInterval n3 with
  | None =>
      let (h, n4) := setTimeout (reconnectTimeout n3) n3 in
      set_reconnectInterval (Some h) n4
  | Some _ => n3
  end.

(** [send(data)].  What [ws.send] does with a frame belongs to the socket
    library; here the socket takes the frame. *)
Definition send (data : Json) (n : t) : t :=
  match ws n with
  | None => n
  | Some s =>
      match JSON_stringify data with
      | None => emit (SigError "Unable to stringify payload.") n
      | Some payload => record (WsSend s payload) n
      end
  end.

Definition onMessage (message : string) (n : t) : Completion * t :=
  match JSON_parse message with
  | None => (Normal, emit (SigError "Unable to parse ws message.") n)
  | Some data =>
      match getProp data "op" with
      | TypeError => (Throw, n)
      | op =>
          let n1 := if strictEqStr op "stats" then set_stats data n else n in
          (Normal, emit (SigMessage data) n1)
      end
  end.

(** *** The node's life as a sequence of events

    Socket events reach the node through the listeners [connect] bound;
    a timer that fires runs [reconnect]; the owner calls [send] and
    [destroy] and sets the public [draining] flag. *)
Inductive Event : Type :=
| EvOpen (s : nat)
| EvMessage (s : nat) (message : string)
| EvError (s : nat) (err : string)
| EvClose (s : nat)
| EvTimer (h : nat)
| CallSend (data : Json)
| CallDestroy
| SetDraining (b : bool).

Definition findSocket (s : nat) (n : t) : option Socket :=
  find (fun k => Nat.eqb (sock_id k) s) (sockets n).

Definition dropSocket (s : nat) (n : t) : t :=
  set_sockets (filter (fun k => negb (Nat.eqb (sock_id k) s)) (sockets n)) n.

Definition armed (h : nat) (n : t) : bool :=
  existsb (fun tm => Nat.eqb (fst tm) h) (timers n).

Definition fire (h : nat) (n : t) : t :=
  set_timers (filter (fun tm => negb (Nat.eqb (fst tm) h)) (timers n)) n.

(** One event; [None] when it cannot occur in this state (a socket that is
    gone, a timer that is not armed). *)
Definition step (e : Event) (n : t) : option t :=
  match e with
  | EvOpen s =>
      match findSocket s n with
      | Some _ => Some (ready n)
      | None => None
      end
  | EvMessage s message =>
      match findSocket s n with
      | Some _ => Some (snd (onMessage message n))
      | None => None
      end
  | EvError s err =>
      match findSocket s n with
      | Some _ => Some (emit (SigError err) n)
      | None => None
      end
  | EvClose s =>
      match findSocket s n with
      | Some k =>
          let n1 := dropSocket s n in
          Some (if closeListener k then disconnected n1 else n1)
      | None => None
      end
  | EvTimer h =>
      if armed h n then Some (reconnect (fire h n)) else None
  | CallSend data => Some (send data n)
  | CallDestroy => Some (destroy n)
  | SetDraining b => Some (set_draining b n)
  end.

Fixpoint run (evs : list Event) (n : t) : option t :=
  match evs with
  | [] => Some n
  | e :: rest =>
      match step e n with
      | Some n' => run rest n'
      | None => None
      end
  end.

Definition reachable (n : t) : Prop :=
  exists options evs, run evs (constructor options) = Some n.

(** The delays of the timers armed so far, oldest first. *)
Definition delays (n : t) : list Z :=
  flat_map (fun e => match e with SetTimeout _ d => [d] | _ => [] end) (log n).

(** The signals emitted so far, oldest first. *)
Definition signals (n : t) : list Signal :=
  flat_map (fun e => match e with Emit s => [s] | _ => [] end) (log n).

(** The frames written to any socket so far, oldest first. *)
Definition frames (n : t) : list string :=
  flat_map (fun e => match e with WsSend _ p => [p] | _ => [] end) (log n).

(** The socket fails to open [k] times in a row: the socket made by the
    constructor closes, and each later failure is the pending timer firing
    (which runs [reconnect]) followed by the new socket closing. *)
Fixpoint failures (k : nat) : list Event :=
  match k with
  | O => []
  | S k' =>
      failures k'
      ++ match k' with O => [] | S j => [EvTimer j] end
      ++ [EvClose k']
  end.

End Methods.
End Lavalink.

(** ** The player, [class Player] *)

Module Player.

Inductive Signal : Type :=
| SigConnect
| SigReady
| SigDisconnect (msg : Json)
| SigEnd (message : Obj)
| SigError (message : Obj).

(** The callbacks the player hands to [process.nextTick]. *)
Inductive Tick : Type :=
| TickCheckEventQueue
| TickEmitReady
| TickEmitEnd (message : Obj).

(** What the player does to the outside world, in the order it happens:
    signals to its listeners, calls of [this.node.send], the call of
    [this.manager.switchNode(this)], and the voice state update handed to
    [this.shard.sendWS]. *)
Inductive Effect : Type :=
| Emit (s : Signal)
| NodeSend (data : Json)
| SwitchNode
| SendVoiceStateUpdate (payload : Obj).

Record Shard : Type := { has_sendWS : bool }.

Record Data : Type := {
  d_hostname : string;
  d_guildId : string;
  d_channelId : string;
  d_shard : Shard;
  d_node : Lavalink.t;
  d_manager : bool;
  d_options : option Obj
}.

Record ConnectData : Type := {
  cd_guildId : string;
  cd_sessionId : string;
  cd_event : Json
}.

(** The object's fields ([manager] tells whether [this.manager] holds a
    manager or [null]; [None] in [track] and [lastTrack] is [null] or not yet
    assigned), then the pending [nextTick] callbacks and the effect log. *)
Record t : Type := mk {
  id : string;
  node : Lavalink.t;
  hostname : string;
  guildId : string;
  channelId : string;
  manager : bool;
  options : option Obj;
  ready : bool;
  playing : bool;
  paused : bool;
  shard : Shard;
  state : Obj;
  track : option string;
  sendQueue : list Json;
  timestamp : Z;
  lastTrack : option string;
  playOptions : option Obj;
  ticks : list Tick;
  log : list Effect
}.

Definition set_node (v : Lavalink.t) (w : t) : t :=
  mk (id w) v (hostname w) (guildId w) (channelId w) (manager w) (options w)
     (ready w) (playing w) (paused w) (shard w) (state w) (track w) (sendQueue w)
     (timestamp w) (lastTrack w) (playOptions w) (ticks w) (log w).

Definition set_channelId (v : string) (w : t) : t :=
  mk (id w) (node w) (hostname w) (guildId w) v (manager w) (options w)
     (ready w) (playing w) (paused w) (shard w) (state w) (track w) (sendQueue w)
     (timestamp w) (lastTrack w) (playOptions w) (ticks w) (log w).

Definition set_playing (v : bool) (w : t) : t :=
  mk (id w) (node w) (hostname w) (guildId w) (channelId w) (manager w) (options w)
     (ready w) v (paused w) (shard w) (state w) (track w) (sendQueue w)
     (timestamp w) (lastTrack w) (playOptions w) (ticks w) (log w).

Definition set_paused (v : bool) (w : t) : t :=
  mk (id w) (node w) (hostname w) (guildId w) (channelId w) (manager w) (options w)
     (ready w) (playing w) v (shard w) (state w) (track w) (sendQueue w)
     (timestamp w) (lastTrack w) (playOptions w) (ticks w) (log w).

Definition set_state (v : Obj) (w : t) : t :=
  mk (id w) (node w) (hostname w) (guildId w) (channelId w) (manager w) (options w)
     (ready w) (playing w) (paused w) (shard w) v (track w) (sendQueue w)
     (timestamp w) (lastTrack w) (playOptions w) (ticks w) (log w).

Definition set_track (v : option string) (w : t) : t :=
  mk (id w) (node w) (hostname w) (guildId w) (channelId w) (manager w) (options w)
     (ready w) (playing w) (paused w) (shard w) (state w) v (sendQueue w)
     (timestamp w) (lastTrack w) (playOptions w) (ticks w) (log w).

Definition set_sendQueue (v : list Json) (w : t) : t :=
  mk (id w) (node w) (hostname w) (guildId w) (channelId w) (manager w) (options w)
     (ready w) (playing w) (paused w) (shard w) (state w) (track w) v
     (timestamp w) (lastTrack w) (playOptions w) (ticks w) (log w).

Definition set_timestamp (v : Z) (w : t) : t :=
  mk (id w) (node w) (hostname w) (guildId w) (channelId w) (manager w) (options w)
     (ready w) (playing w) (paused w) (shard w) (state w) (track w) (sendQueue w)
     v (lastTrack w) (playOptions w) (ticks w) (log w).

Definition set_lastTrack (v : option string) (w : t) : t :=
  mk (id w) (node w) (hostname w) (guildId w) (channelId w) (manager w) (options w)
     (ready w) (playing w) (paused w) (shard w) (state w) (track w) (sendQueue w)
     (timestamp w) v (playOptions w) (ticks w) (log w).

Definition set_playOptions (v : option Obj) (w : t) : t :=
  mk (id w) (node w) (hostname w) (guildId w) (channelId w) (manager w) (options w)
     (ready w) (playing w) (paused w) (shard w) (state w) (track w) (sendQueue w)
     (timestamp w) (lastTrack w) v (ticks w) (log w).

Definition set_ticks (v : list Tick) (w : t) : t :=
  mk (id w) (node w) (hostname w) (guildId w) (channelId w) (manager w) (options w)
     (ready w) (playing w) (paused w) (shard w) (state w) (track w) (sendQueue w)
     (timestamp w) (lastTrack w) (playOptions w) v (log w).

Definition set_log (v : list Effect) (w : t) : t :=
  mk (id w) (node w) (hostname w) (guildId w) (channelId w) (manager w) (options w)
     (ready w) (playing w) (paused w) (shard w) (state w) (track w) (sendQueue w)
     (timestamp w) (lastTrack w) (playOptions w) (ticks w) v.

Definition record (e : Effect) (w : t) : t := set_log (log w ++ [e]) w.

Definition emit (s : Signal) (w : t) : t := record (Emit s) w.

(** [process.nextTick(callback)]: callbacks run in the order they were given. *)
Definition nextTick (tk : Tick) (w : t) : t := set_ticks (ticks w ++ [tk]) w.

(** [constructor(id, data)]; [now] is what [Date.now()] returns. *)
Definition constructor (ident : string) (data : Data) (now : Z) : t :=
  {| id := ident;
     node := d_node data;
     hostname := d_hostname data;
     guildId := d_guildId data;
     channelId := d_channelId data;
     manager := d_manager data;
     options := d_options data;
     ready := false;
     playing := false;
     paused := false;
     shard := d_shard data;
     state := [];
     track := None;
     sendQueue := [];
     timestamp := now;
     lastTrack := None;
     playOptions := None;
     ticks := [];
     log := [] |}.

Section Methods.
Context {codec : JSONCodec}.

(** [this.node.send(data)] *)
Definition nodeSend (data : Json) (w : t) : t :=
  record (NodeSend data) (set_node (Lavalink.send data (node w)) w).

Definition sendEvent (data : Json) (w : t) : t :=
  nextTick TickCheckEventQueue (nodeSend data w).

Definition checkEventQueue (w : t) : t :=
  match sendQueue w with
  | event :: rest => sendEvent event (set_sendQueue rest w)
  | [] => w
  end.

Definition queueEvent (data : Json) (w : t) : t :=
  match sendQueue w with
  | _ :: _ => set_sendQueue (sendQueue w ++ [data]) w
  | [] => sendEvent data w
  end.

Definition voiceUpdate (data : ConnectData) : Json :=
  JObj [("op", JStr "voiceUpdate");
        ("guildId", JStr (cd_guildId data));
        ("sessionId", JStr (cd_sessionId data));
        ("event", cd_event data)].

Definition connect (data : ConnectData) (w : t) : t :=
  let w1 := emit SigConnect w in
  let w2 := queueEvent (voiceUpdate data) w1 in
  nextTick TickEmitReady w2.

Definition stopPayload (w : t) : Json :=
  JObj [("op", JStr "stop"); ("guildId", JStr (guildId w))].

Definition stop (w : t) : t :=
  let payload := stopPayload w in
  let w1 := queueEvent payload w in
  let w2 := set_playing false w1 in
  let w3 := set_lastTrack (track w2) w2 in
  set_track None w3.

Definition setPause (pause : bool) (w : t) : t :=
  let w1 := nodeSend (JObj [("op", JStr "pause");
                            ("guildId", JStr (guildId w));
                            ("pause", JBool pause)]) w in
  let w2 := set_paused pause w1 in
  set_playing (negb pause) w2.

Definition pause (w : t) : t :=
  if playing w then setPause true w else w.

Definition resume (w : t) : t :=
  if negb (playing w) && paused w then setPause false w else w.

Definition _disconnect (w : t) : t :=
  let w1 := set_playing false w in
  let w2 := if paused w1 then resume w1 else w1 in
  let w3 := queueEvent (JObj [("op", JStr "destroy");
                              ("guildId", JStr (guildId w2))]) w2 in
  stop w3.

Definition disconnect (msg : Json) (w : t) : t :=
  emit (SigDisconnect msg) (_disconnect w).

Definition playPayload (w : t) (trackId : string) (opts : option Obj) : Json :=
  JObj (Object_assign [("op", JStr "play");
                       ("guildId", JStr (guildId w));
                       ("track", JStr trackId)] opts).

(** [play(track, options)]; [now] is what [Date.now()] returns.  With a
    draining node and [this.manager] null the call ends in a TypeError. *)
Definition play (trackId : string) (opts : option Obj) (now : Z) (w : t)
  : Completion * t :=
  let w1 := set_lastTrack (track w) w in
  let w2 := set_track (Some trackId) w1 in
  let w3 := set_playOptions opts w2 in
  if Lavalink.draining (node w3) then
    let w4 := set_state (assign "position" (JNum 0) (state w3)) w3 in
    if manager w4 then (Normal, record SwitchNode w4) else (Throw, w4)
  else
    let payload := playPayload w3 trackId opts in
    let w4 := queueEvent payload w3 in
    let w5 := set_playing (negb (paused w4)) w4 in
    (Normal, set_timestamp now w5).

Definition stateUpdate (st : Obj) (w : t) : t := set_state st w.

Definition setEqualizer (bands : Json) (w : t) : t :=
  nodeSend (JObj [("op", JStr "equalizer");
                  ("guildId", JStr (guildId w));
                  ("bands", bands)]) w.

Definition destroy (w : t) : t :=
  nodeSend (JObj [("op", JStr "destroy"); ("guildId", JStr (guildId w))]) w.

Definition seek (position : Z) (w : t) : t :=
  nodeSend (JObj [("op", JStr "seek");
                  ("guildId", JStr (guildId w));
                  ("position", JNum position)]) w.

Definition setVolume (volume : Z) (w : t) : t :=
  nodeSend (JObj [("op", JStr "volume");
                  ("guildId", JStr (guildId w));
                  ("volume", JNum volume)]) w.

(** [message.reason !== 'REPLACED'] *)
Definition replaced (message : Obj) : bool :=
  strictEqStr (getProp (JObj message) "reason") "REPLACED".

Definition onTrackEnd (message : Obj) (w : t) : t :=
  let w1 := if negb (replaced message)
            then set_track None (set_lastTrack (track w) (set_playing false w))
            else w in
  emit (SigEnd message) w1.

Definition onTrackException (message : Obj) (w : t) : t :=
  emit (SigError message) w.

Definition onTrackStuck (message : Obj) (w : t) : t :=
  nextTick (TickEmitEnd message) (stop w).

Definition updateVoiceState (chan : string) (selfMute selfDeaf : bool) (w : t) : t :=
  if has_sendWS (shard w) then
    record (SendVoiceStateUpdate
              [("guild_id", if String.eqb (id w) "call" then JNull else JStr (id w));
               ("channel_id", if String.eqb chan "" then JNull else JStr chan);
               ("self_mute", JBool selfMute);
               ("self_deaf", JBool selfDeaf)]) w
  else w.

Definition switchChannel (chan : string) (reactive : bool) (w : t) : t :=
  if String.eqb (channelId w) chan then w
  else
    let w1 := set_channelId chan w in
    if reactive then updateVoiceState chan false false w1 else w1.

Definition getTimestamp (now : Z) (w : t) : Z := now - timestamp w.

(** *** Scheduling turns *)

(** The oldest pending [nextTick] callback runs. *)
Definition runTick (w : t) : t :=
  match ticks w with
  | [] => w
  | tk :: rest =>
      let w1 := set_ticks rest w in
      match tk with
      | TickCheckEventQueue => checkEventQueue w1
      | TickEmitReady => emit SigReady w1
      | TickEmitEnd message => emit (SigEnd message) w1
      end
  end.

Fixpoint runTicks (fuel : nat) (w : t) : t :=
  match fuel with
  | O => w
  | S fuel' =>
      match ticks w with
      | [] => w
      | _ :: _ => runTicks fuel' (runTick w)
      end
  end.

(** Every pending callback runs, and those they schedule in turn: each
    callback either leaves the tick queue shorter or takes a command off
    the send queue, which bounds the number of turns. *)
Definition drain (w : t) : t :=
  runTicks (List.length (ticks w) + List.length (sendQueue w)) w.

(** *** The player's life as a sequence of operations

    The methods of the class, a scheduling turn, an event on the bound
    node, and the manager pointing [this.node] at another node. *)
Inductive Op : Type :=
| OpConnect (data : ConnectData)
| OpDisconnect (msg : Json)
| OpPlay (trackId : string) (opts : option Obj) (now : Z)
| OpStop
| OpStateUpdate (st : Obj)
| OpSetPause (pause : bool)
| OpSetEqualizer (bands : Json)
| OpDestroy
| OpPause
| OpResume
| OpSeek (position : Z)
| OpSetVolume (volume : Z)
| OpOnTrackEnd (message : Obj)
| OpOnTrackException (message : Obj)
| OpOnTrackStuck (message : Obj)
| OpSwitchChannel (chan : string) (reactive : bool)
| OpUpdateVoiceState (chan : string) (selfMute selfDeaf : bool)
| OpQueueEvent (data : Json)
| OpSendEvent (data : Json)
| OpCheckEventQueue
| OpTick
| OpNodeEvent (e : Lavalink.Event)
| OpSetNode (n : Lavalink.t).

Definition exec (o : Op) (w : t) : t :=
  match o with
  | OpConnect data => connect data w
  | OpDisconnect msg => disconnect msg w
  | OpPlay trackId opts now => snd (play trackId opts now w)
  | OpStop => stop w
  | OpStateUpdate st => stateUpdate st w
  | OpSetPause b => setPause b w
  | OpSetEqualizer bands => setEqualizer bands w
  | OpDestroy => destroy w
  | OpPause => pause w
  | OpResume => resume w
  | OpSeek position => seek position w
  | OpSetVolume volume => setVolume volume w
  | OpOnTrackEnd message => onTrackEnd message w
  | OpOnTrackException message => onTrackException message w
  | OpOnTrackStuck message => onTrackStuck message w
  | OpSwitchChannel chan reactive => switchChannel chan reactive w
  | OpUpdateVoiceState chan m d => updateVoiceState chan m d w
  | OpQueueEvent data => queueEvent data w
  | OpSendEvent data => sendEvent data w
  | OpCheckEventQueue => checkEventQueue w
  | OpTick => runTick w
  | OpNodeEvent e =>
      match Lavalink.step e (node w) with
      | Some n' => set_node n' w
      | None => w
      end
  | OpSetNode n => set_node n w
  end.

Definition run (ops : list Op) (w : t) : t :=
  fold_left (fun acc o => exec o acc) ops w.

Definition reachable (w : t) : Prop :=
  exists ident data now ops, w = run ops (constructor ident data now).

(** The payloads handed to [this.node.send] so far, oldest first. *)
Definition delivered (w : t) : list Json :=
  flat_map (fun e => match e with NodeSend d => [d] | _ => [] end) (log w).

(** The signals emitted so far, oldest first. *)
Definition signals (w : t) : list Signal :=
  flat_map (fun e => match e with Emit s => [s] | _ => [] end) (log w).

(** A command is in flight from the moment [sendEvent] hands it to the
    node until the queue check scheduled right after it has run. *)
Definition inFlight (w : t) : bool :=
  existsb (fun tk => match tk with TickCheckEventQueue => true | _ => false end)
          (ticks w).

End Methods.
End Player.

(** ** Worked inputs *)

(** A codec for the worked examples: a payload is written as the text of its
    [op], and two inbound texts are understood. *)
Definition exampleCodec : JSONCodec :=
  {| JSON_stringify := fun d =>
       match getProp d "op" with
       | Found (JStr s) => Some s
       | _ => None
       end;
     JSON_parse := fun text =>
       if String.eqb text "stats"
       then Some (JObj [("op", JStr "stats"); ("players", JNum 3);
                        ("playingPlayers", JNum 1)])
       else if String.eqb text "null" then Some JNull
       else None |}.

Definition exampleOptions : Lavalink.Options :=
  {| Lavalink.o_host := "localhost";
     Lavalink.o_port := None;
     Lavalink.o_region := None;
     Lavalink.o_numShards := 1;
     Lavalink.o_userId := "bot";
     Lavalink.o_password := None;
     Lavalink.o_timeout := None |}.

Definition exampleData : Player.Data :=
  {| Player.d_hostname := "localhost";
     Player.d_guildId := "guild";
     Player.d_channelId := "channel";
     Player.d_shard := {| Player.has_sendWS := true |};
     Player.d_node := Lavalink.constructor exampleOptions;
     Player.d_manager := true;
     Player.d_options := None |}.

Definition exampleConnect : Player.ConnectData :=
  {| Player.cd_guildId := "guild";
     Player.cd_sessionId := "session";
     Player.cd_event := JObj [("token", JStr "secret")] |}.

Definition examplePlayer : Player.t := Player.constructor "guild" exampleData 0.

(** The same data with no manager handed to the constructor. *)
Definition exampleDataNoManager : Player.Data :=
  {| Player.d_hostname := "localhost";
     Player.d_guildId := "guild";
     Player.d_channelId := "channel";
     Player.d_shard := {| Player.has_sendWS := true |};
     Player.d_node := Lavalink.constructor exampleOptions;
     Player.d_manager := false;
     Player.d_options := None |}.

(** ** The queue ordering contract as the specification words it

    A second model, written from the specification and not from the code, to
    compare with [Player.queueEvent]: a command goes to the tail of the pending
    queue while another is in flight, and is otherwise sent at once and marked
    in flight; on the next scheduling turn after a send the head of the queue,
    if any, is taken off and sent. *)
Module Contract.

Record t : Type := {
  inFlight : bool;
  pending : list Json;
  sent : list Json
}.

Definition fresh : t := {| inFlight := false; pending := []; sent := [] |}.

Definition queueEvent_spec (payload : Json) (q : t) : t :=
  if inFlight q
  then {| inFlight := true; pending := pending q ++ [payload]; sent := sent q |}
  else {| inFlight := true; pending := pending q; sent := sent q ++ [payload] |}.

Definition turn_spec (q : t) : t :=
  match pending q with
  | head :: rest => {| inFlight := true; pending := rest; sent := sent q ++ [head] |}
  | [] => {| inFlight := false; pending := []; sent := sent q |}
  end.

End Contract.

(** ** Auxiliary notions for the statements *)

(** The formula of [Lavalink.retryInterval], as a function of the retry
    counter. *)
Definition backoff (r : Z) : Z := (Z.min (r - 1) 5 + 5) ^ 2 * 1000.

(** The armed timers are exactly the one [reconnectInterval] refers to. *)
Definition timerInv (n : Lavalink.t) : Prop :=
  map fst (Lavalink.timers n)
  = match Lavalink.reconnectInterval n with
    | Some h => [h]
    | None => []
    end.

Section Failing.
Import Lavalink.

(** The state a node is in after failing to open [S k] times in a row. *)
Record failing (options : Options) (k : nat) (n : t) : Prop := {
  f_retries : retries n = Z.of_nat k;
  f_interval : reconnectInterval n = Some k;
  f_timers : map fst (timers n) = [k];
  f_sockets : sockets n = [];
  f_nextSocket : nextSocket n = S k;
  f_nextTimer : nextTimer n = S k;
  f_timeout : reconnectTimeout n = orZ (o_timeout options) 5000;
  f_delays : delays n
             = orZ (o_timeout options) 5000
               :: map (fun r => backoff (Z.of_nat r)) (seq 0 k)
}.

End Failing.

(** What the pending callbacks emit when they run with an empty send queue. *)
Definition tickSignals (tks : list Player.Tick) : list Player.Effect :=
  flat_map (fun tk => match tk with
                      | Player.TickCheckEventQueue => []
                      | Player.TickEmitReady => [Player.Emit Player.SigReady]
                      | Player.TickEmitEnd message =>
                          [Player.Emit (Player.SigEnd message)]
                      end) tks.

(** A schedule of [queueEvent] calls ([Some payload]) and scheduling turns
    ([None]), and the payloads it enqueues. *)
Definition schedule (s : list (option Json)) : list Player.Op :=
  map (fun a => match a with
                | Some d => Player.OpQueueEvent d
                | None => Player.OpTick
                end) s.

Definition enqueued (s : list (option Json)) : list Json :=
  flat_map (fun a => match a with Some d => [d] | None => [] end) s.

(** The load snapshot a node starts with. *)
Definition initialStats : Json :=
  JObj [("players", JNum 0); ("playingPlayers", JNum 0)].

(** The load snapshot is the initial one or a payload whose [op] is [stats]. *)
Definition statsSnapshot (n : Lavalink.t) : Prop :=
  Lavalink.stats n = initialStats
  \/ strictEqStr (getProp (Lavalink.stats n) "op") "stats" = true.

(** A node that reports itself connected has no reconnect under way. *)
Definition idleWhenConnected (n : Lavalink.t) : Prop :=
  Lavalink.connected n = true ->
  Lavalink.timers n = []
  /\ Lavalink.retries n = 0
  /\ Lavalink.reconnectInterval n = None.

(** The payloads [setPause] and [destroy] build for guild [g]. *)
Definition pausePayload (g : string) (pause : bool) : Json :=
  JObj [("op", JStr "pause"); ("guildId", JStr g); ("pause", JBool pause)].

Definition destroyPayload (g : string) : Json :=
  JObj [("op", JStr "destroy"); ("guildId", JStr g)].

(** Commands wait in the queue only while a queue check is scheduled. *)
Definition queueCovered (v : Player.t) : Prop :=
  Player.sendQueue v <> [] -> Player.inFlight v = true.

(** What a node's connection consists of, apart from its log and the
    runtime's bookkeeping of sockets. *)
Definition nodeCore (n : Lavalink.t)
  : bool * bool * Z * option nat * list (nat * Z) * Json * option nat :=
  (Lavalink.connected n, Lavalink.draining n, Lavalink.retries n,
   Lavalink.reconnectInterval n, Lavalink.timers n, Lavalink.stats n,
   Lavalink.ws n).

(** The operations that are methods of the player or scheduling turns, as
    opposed to events on the node and the manager rebinding the node. *)
Definition isPlayerOp (o : Player.Op) : bool :=
  match o with
  | Player.OpNodeEvent _ | Player.OpSetNode _ => false
  | _ => true
  end.

(** * Properties of the node connection *)

Section LavalinkFacts.
Context {codec : JSONCodec}.
Import Lavalink.

Lemma node_run_app (a b : list Event) (n : t) :
  run (a ++ b) n = match run a n with Some m => run b m | None => None end.
Proof.
  revert n; induction a as [|e a IH]; intros n; simpl; [reflexivity|].
  destruct (step e n); [apply IH | reflexivity].
Qed.

Lemma failures_SS (k : nat) :
  failures (S (S k)) = failures (S k) ++ [EvTimer k; EvClose (S k)].
Proof. reflexivity. Qed.

Lemma retryInterval_backoff (n : t) : retryInterval n = backoff (retries n).
Proof. reflexivity. Qed.

Lemma delays_reconnect (n : t) :
  delays (reconnect n) = delays n ++ [backoff (retries n)].
Proof.
  unfold reconnect, delays, setTimeout, connect, record; simpl.
  rewrite !flat_map_app; simpl. rewrite !app_nil_r. reflexivity.
Qed.

Lemma failing_first (options : Options) :
  exists n, run (failures 1) (constructor options) = Some n
            /\ failing options 0 n.
Proof.
  eexists; split; [reflexivity|].
  constructor; reflexivity.
Qed.

Lemma failing_next (options : Options) (k : nat) (n : t) :
  failing options k n ->
  exists n', run [EvTimer k; EvClose (S k)] n = Some n'
             /\ failing options (S k) n'.
Proof.
  intros [Hr Hi Ht Hs Hns Hnt Hto Hd].
  destruct n as [h p rg u ns pw c d r rt ri st w sk tm nsk ntm lg].
  simpl in *; subst.
  destruct tm as [|[h0 d0] [|? ?]]; simpl in Ht; try discriminate.
  injection Ht as ->.
  unfold run, step, armed, fire; simpl. rewrite Nat.eqb_refl; simpl.
  unfold findSocket; simpl. rewrite Nat.eqb_refl; simpl.
  eexists; split; [reflexivity|].
  constructor; simpl; try reflexivity.
  - lia.
  - rewrite Nat.eqb_refl; reflexivity.
  - unfold delays in *; simpl in *.
    rewrite !flat_map_app; simpl. rewrite !app_nil_r.
    rewrite Hd.
    change (backoff 0 :: map (fun r => backoff (Z.of_nat r)) (seq 1 k))
      with (map (fun r => backoff (Z.of_nat r)) (seq 0 (S k))).
    rewrite seq_S, map_app. reflexivity.
Qed.

Lemma failing_run (options : Options) (k : nat) :
  exists n, run (failures (S k)) (constructor options) = Some n
            /\ failing options k n.
Proof.
  induction k as [|k [n [Hrun Hf]]].
  - apply failing_first.
  - destruct (failing_next options k n Hf) as [n' [Hrun' Hf']].
    exists n'; split; [|exact Hf'].
    rewrite failures_SS, node_run_app, Hrun. exact Hrun'.
Qed.

Lemma backoff_values :
  backoff 0 = 16000 /\ backoff 1 = 25000 /\ backoff 2 = 36000
  /\ backoff 3 = 49000 /\ backoff 6 = 100000.
Proof. repeat split. Qed.

Lemma backoff_capped (r : Z) : 6 <= r -> backoff r = 100000.
Proof. intros H. unfold backoff. rewrite Z.min_r by lia. reflexivity. Qed.

Lemma delays_disconnected (n : t) :
  delays (disconnected n)
  = delays n ++ match reconnectInterval n with
                | None => [reconnectTimeout n]
                | Some _ => []
                end.
Proof.
  unfold disconnected, delays, setTimeout, emit, record.
  destruct n as [h p rg u ns pw c d r rt [i|] st w sk tm nsk ntm lg]; simpl.
  - rewrite app_nil_r; reflexivity.
  - rewrite !flat_map_app; simpl. rewrite !app_nil_r. reflexivity.
Qed.

(** C1, as amended: a disconnect with no timer pending arms the first
    reconnect after [reconnectTimeout] (5000 ms unless configured); every run
    of [reconnect] arms the following one after
    [(min(r-1,5)+5)^2 * 1000] ms, where [r] is the retry counter when it
    runs (0 the first time), which is 100000 ms from [r = 6] on; so a fresh
    node that fails to open [k+1] times in a row observes [reconnectTimeout]
    and then the formula at [r = 0, ..., k-1]. *)
Theorem reconnect_delays (options : Options) (k : nat) :
  (forall n, retryInterval n = (Z.min (retries n - 1) 5 + 5) ^ 2 * 1000)
  /\ (forall r, backoff (Z.max 6 r) = 100000)
  /\ (forall n, delays (reconnect n) = delays n ++ [backoff (retries n)])
  /\ (forall n, delays (disconnected n)
                = delays n ++ match reconnectInterval n with
                              | None => [reconnectTimeout n]
                              | Some _ => []
                              end)
  /\ exists n, run (failures (S k)) (constructor options) = Some n
               /\ delays n
                  = orZ (o_timeout options) 5000
                    :: map (fun r => backoff (Z.of_nat r)) (seq 0 k).
Proof.
  split; [reflexivity|].
  split; [intros r; apply backoff_capped; lia|].
  split; [exact delays_reconnect|].
  split; [exact delays_disconnected|].
  destruct (failing_run options k) as [n [Hrun Hf]].
  exists n; split; [exact Hrun | exact (f_delays _ _ _ Hf)].
Qed.

(** *** One reconnect timer at a time *)

Lemma map_fst_single {A B : Type} (l : list (A * B)) (a : A) :
  map fst l = [a] -> exists b, l = [(a, b)].
Proof.
  destruct l as [|[a0 b0] [|? ?]]; simpl; intros H; try discriminate.
  injection H as ->. exists b0; reflexivity.
Qed.

Lemma timerInv_constructor (options : Options) : timerInv (constructor options).
Proof. reflexivity. Qed.

Lemma timerInv_ready (n : t) :
  timerInv n -> timers (ready n) = [] /\ reconnectInterval (ready n) = None.
Proof.
  unfold timerInv, ready, clearTimeout, emit, record.
  destruct n as [h p rg u ns pw c d r rt [i|] st w sk tm nsk ntm lg];
    simpl; intros H.
  - destruct (map_fst_single _ _ H) as [b ->]. simpl.
    rewrite Nat.eqb_refl. split; reflexivity.
  - destruct tm; [split; reflexivity | discriminate].
Qed.

Lemma timerInv_disconnected (n : t) : timerInv n -> timerInv (disconnected n).
Proof.
  unfold timerInv, disconnected, setTimeout, emit, record.
  destruct n as [h p rg u ns pw c d r rt [i|] st w sk tm nsk ntm lg];
    simpl; intros H.
  - exact H.
  - destruct tm; [reflexivity | discriminate].
Qed.

Lemma timerInv_fire_reconnect (h : nat) (n : t) :
  timerInv n -> armed h n = true -> timerInv (reconnect (fire h n)).
Proof.
  unfold timerInv, armed, fire, reconnect, setTimeout, connect, record.
  destruct n as [ho p rg u ns pw c d r rt [i|] st w sk tm nsk ntm lg];
    simpl; intros H Ha.
  - destruct (map_fst_single _ _ H) as [b ->]. simpl in *.
    rewrite Bool.orb_false_r in Ha. rewrite Ha. reflexivity.
  - destruct tm; [discriminate Ha | discriminate H].
Qed.

Lemma onMessage_frame (message : string) (n : t) :
  timers (snd (onMessage message n)) = timers n
  /\ reconnectInterval (snd (onMessage message n)) = reconnectInterval n.
Proof.
  unfold onMessage.
  destruct (JSON_parse message) as [data|]; [|split; reflexivity].
  destruct (getProp data "op") as [| |v]; [split; reflexivity | |];
    destruct (strictEqStr _ "stats"); split; reflexivity.
Qed.

Lemma send_frame (data : Json) (n : t) :
  timers (send data n) = timers n
  /\ reconnectInterval (send data n) = reconnectInterval n.
Proof.
  unfold send. destruct (ws n); [|split; reflexivity].
  destruct (JSON_stringify data); split; reflexivity.
Qed.

Lemma destroy_frame (n : t) :
  timers (destroy n) = timers n
  /\ reconnectInterval (destroy n) = reconnectInterval n.
Proof. unfold destroy. destruct (ws n); split; reflexivity. Qed.

Lemma timerInv_step (e : Event) (n n' : t) :
  timerInv n -> step e n = Some n' -> timerInv n'.
Proof.
  intros Hinv Hstep. destruct e; simpl in Hstep.
  - destruct (findSocket s n); [|discriminate]. injection Hstep as <-.
    destruct (timerInv_ready n Hinv) as [Ht Hi].
    unfold timerInv. rewrite Ht, Hi. reflexivity.
  - destruct (findSocket s n); [|discriminate]. injection Hstep as <-.
    destruct (onMessage_frame message n) as [Ht Hi].
    unfold timerInv. rewrite Ht, Hi. exact Hinv.
  - destruct (findSocket s n); [|discriminate]. injection Hstep as <-.
    exact Hinv.
  - destruct (findSocket s n) as [k|]; [|discriminate]. injection Hstep as <-.
    assert (Hd : timerInv (dropSocket s n)) by exact Hinv.
    destruct (closeListener k); [apply timerInv_disconnected|]; exact Hd.
  - destruct (armed h n) eqn:Ha; [|discriminate]. injection Hstep as <-.
    apply timerInv_fire_reconnect; assumption.
  - injection Hstep as <-.
    destruct (send_frame data n) as [Ht Hi].
    unfold timerInv. rewrite Ht, Hi. exact Hinv.
  - injection Hstep as <-.
    destruct (destroy_frame n) as [Ht Hi].
    unfold timerInv. rewrite Ht, Hi. exact Hinv.
  - injection Hstep as <-. exact Hinv.
Qed.

Lemma timerInv_run (evs : list Event) (n n' : t) :
  timerInv n -> run evs n = Some n' -> timerInv n'.
Proof.
  revert n; induction evs as [|e evs IH]; intros n Hinv Hrun; simpl in Hrun.
  - injection Hrun as <-. exact Hinv.
  - destruct (step e n) as [m|] eqn:Hs; [|discriminate].
    apply (IH m); [apply (timerInv_step e n) |]; assumption.
Qed.

Lemma timerInv_reachable (n : t) : reachable n -> timerInv n.
Proof.
  intros [options [evs Hrun]].
  apply (timerInv_run evs (constructor options)); [|exact Hrun].
  apply timerInv_constructor.
Qed.

(** C6: in every state the node can reach through socket events, timers and
    calls, at most one reconnect timer is armed, and [ready] resets the retry
    counter to 0 and leaves no timer armed. *)
Theorem single_reconnect_timer (n : t) :
  reachable n ->
  (List.length (timers n) <= 1)%nat
  /\ retries (ready n) = 0
  /\ timers (ready n) = []
  /\ reconnectInterval (ready n) = None.
Proof.
  intros Hr. pose proof (timerInv_reachable n Hr) as Hinv.
  split.
  - unfold timerInv in Hinv.
    rewrite <- (length_map fst), Hinv.
    destruct (reconnectInterval n); simpl; lia.
  - split; [reflexivity | apply timerInv_ready; exact Hinv].
Qed.

(** *** Sending and receiving *)

Lemma signals_record (e : Effect) (n : t) :
  signals (record e n)
  = signals n ++ match e with Emit s => [s] | _ => [] end.
Proof.
  unfold signals, record; simpl. rewrite flat_map_app; simpl.
  rewrite app_nil_r. reflexivity.
Qed.

(** When [send] fires a signal: only with a socket at hand and a payload
    that cannot be serialized. *)
Lemma send_signals (data : Json) (n : t) :
  signals (send data n)
  = signals n ++ match ws n, JSON_stringify data with
                 | Some _, None => [SigError "Unable to stringify payload."]
                 | _, _ => []
                 end.
Proof.
  unfold send. destruct (ws n); [|rewrite app_nil_r; reflexivity].
  destruct (JSON_stringify data).
  - rewrite signals_record, app_nil_r. reflexivity.
  - apply signals_record.
Qed.

(** [send] on a node that holds no socket leaves the node exactly as it was,
    so whatever happens next happens as if [send] had never been called. *)
Lemma send_without_socket (data : Json) (n : t) :
  ws n = None ->
  send data n = n
  /\ signals (send data n) = signals n
  /\ frames (send data n) = frames n
  /\ forall evs, run evs (send data n) = run evs n.
Proof.
  intros Hws. assert (H : send data n = n) by (unfold send; rewrite Hws; reflexivity).
  rewrite H. repeat split.
Qed.

Lemma frames_record (e : Effect) (n : t) :
  frames (record e n)
  = frames n ++ match e with WsSend _ p => [p] | _ => [] end.
Proof.
  unfold frames, record; simpl. rewrite flat_map_app; simpl.
  rewrite app_nil_r. reflexivity.
Qed.

(** C4, as amended: [send] looks only at whether the node holds a socket,
    never at whether that socket has opened (the [connected] flag plays no
    part).  With no socket the payload is dropped silently: the node is left
    exactly as it was, so no signal fires, no frame is written, and whatever
    happens next happens as if [send] had never been called: nothing was
    buffered.  With a socket, opened or not, the payload is serialized and
    handed to that socket; the error signal fires exactly when there is a
    socket and the payload cannot be serialized, and then no frame is handed
    over.  In every case only the log of the node grows. *)
Theorem send_outcome (data : Json) (n : t) :
  (forall b, send data (set_connected b n) = set_connected b (send data n))
  /\ (ws n = None ->
      send data n = n /\ forall evs, run evs (send data n) = run evs n)
  /\ (forall s, ws n = Some s ->
        log (send data n)
        = log n ++ match JSON_stringify data with
                   | Some payload => [WsSend s payload]
                   | None => [Emit (SigError "Unable to stringify payload.")]
                   end)
  /\ signals (send data n)
     = signals n ++ match ws n, JSON_stringify data with
                    | Some _, None => [SigError "Unable to stringify payload."]
                    | _, _ => []
                    end
  /\ frames (send data n)
     = frames n ++ match ws n, JSON_stringify data with
                   | Some _, Some payload => [payload]
                   | _, _ => []
                   end
  /\ nodeCore (send data n) = nodeCore n.
Proof.
  split.
  { intros b. unfold send.
    change (ws (set_connected b n)) with (ws n).
    destruct (ws n); [|reflexivity].
    destruct (JSON_stringify data); reflexivity. }
  split.
  { intros Hws. destruct (send_without_socket data n Hws) as [H [_ [_ Hr]]].
    split; assumption. }
  split.
  { intros s Hws. unfold send. rewrite Hws.
    destruct (JSON_stringify data); reflexivity. }
  split; [apply send_signals|].
  split.
  { unfold send. destruct (ws n); [|rewrite app_nil_r; reflexivity].
    destruct (JSON_stringify data).
    - apply (frames_record (WsSend _ _)).
    - exact (frames_record (Emit (SigError "Unable to stringify payload.")) n). }
  unfold send. destruct (ws n); [|reflexivity].
  destruct (JSON_stringify data); reflexivity.
Qed.

(** C5, as amended: text that does not parse fires an error signal and
    changes nothing else; every payload that parses to something other than
    [null] is forwarded through the message signal, and one whose [op] is
    [stats] replaces the load snapshot as well. *)
Theorem onMessage_outcome (message : string) (n : t) :
  (JSON_parse message = None ->
   onMessage message n
   = (Normal, emit (SigError "Unable to parse ws message.") n)
   /\ stats (snd (onMessage message n)) = stats n
   /\ signals (snd (onMessage message n))
      = signals n ++ [SigError "Unable to parse ws message."])
  /\ (forall data,
         JSON_parse message = Some data ->
         data <> JNull ->
         fst (onMessage message n) = Normal
         /\ stats (snd (onMessage message n))
            = (if strictEqStr (getProp data "op") "stats" then data else stats n)
         /\ signals (snd (onMessage message n)) = signals n ++ [SigMessage data]).
Proof.
  split.
  - intros Hp. unfold onMessage; rewrite Hp.
    split; [reflexivity|]. split; [reflexivity|]. apply signals_record.
  - intros data Hp Hnn. unfold onMessage; rewrite Hp.
    destruct (getProp data "op") as [| |v] eqn:Hop.
    + destruct data; try discriminate Hop; [contradiction|].
      simpl in Hop. destruct (lookup "op" fields); discriminate.
    + split; [reflexivity|]. split; [reflexivity|].
      apply (signals_record (Emit (SigMessage data))).
    + split; [reflexivity|]. cbv zeta.
      destruct (strictEqStr (Found v) "stats"); split; try reflexivity.
      * exact (signals_record (Emit (SigMessage data)) (set_stats data n)).
      * exact (signals_record (Emit (SigMessage data)) n).
Qed.

(** A payload that parses to [null] makes the property read throw. *)
Lemma onMessage_null (message : string) (n : t) :
  JSON_parse message = Some JNull -> onMessage message n = (Throw, n).
Proof. intros Hp. unfold onMessage; rewrite Hp. reflexivity. Qed.

End LavalinkFacts.

(** ** Worked cases for the node connection *)

Section LavalinkCases.
Import Lavalink.

(** C1 as stated fails: a fresh node that fails to open three times in a row
    waits 5000, 16000 and 25000 ms, not 25000, 36000 and 49000 ms. *)
Lemma three_failures_delays :
  exists n, @run exampleCodec (failures 3) (constructor exampleOptions) = Some n
            /\ delays n = [5000; 16000; 25000]
            /\ delays n <> [25000; 36000; 49000].
Proof.
  eexists. split; [vm_compute; reflexivity|].
  split; [vm_compute; reflexivity | vm_compute; discriminate].
Qed.

Lemma single_reconnect_timer_witness :
  let n := reconnect (fire 0 (disconnected (dropSocket 0 (constructor exampleOptions)))) in
  @reachable exampleCodec n
  /\ (List.length (timers n) <= 1)%nat
  /\ retries (ready n) = 0
  /\ timers (ready n) = []
  /\ reconnectInterval (ready n) = None.
Proof.
  assert (Hr : @reachable exampleCodec
                 (reconnect (fire 0 (disconnected
                    (dropSocket 0 (constructor exampleOptions))))))
    by (exists exampleOptions, [EvClose 0%nat; EvTimer 0%nat];
        vm_compute; reflexivity).
  split; [exact Hr|].
  exact (@single_reconnect_timer exampleCodec _ Hr).
Defined.

(** C4 as stated fails: after the socket has closed, [send] fires no error
    signal; the only signal the node has emitted is the disconnect. *)
Lemma send_after_close_is_silent :
  let payload := JObj [("op", JStr "stop"); ("guildId", JStr "guild")] in
  exists n, @run exampleCodec [EvClose 0%nat] (constructor exampleOptions) = Some n
            /\ ws n = None
            /\ @send exampleCodec payload n = n
            /\ signals (@send exampleCodec payload n) = [SigDisconnect].
Proof.
  eexists. split; [vm_compute; reflexivity|].
  repeat split.
Qed.

Lemma send_outcome_witness :
  let payload := JObj [("op", JStr "stop"); ("guildId", JStr "guild")] in
  let fresh := constructor exampleOptions in
  let closed := disconnected (dropSocket 0 fresh) in
  (ws closed = None
   /\ @send exampleCodec payload closed = closed
   /\ forall evs, @run exampleCodec evs (@send exampleCodec payload closed)
                  = @run exampleCodec evs closed)
  /\ (connected fresh = false
      /\ ws fresh = Some 0%nat
      /\ log (@send exampleCodec payload fresh)
         = log fresh ++ [WsSend 0 "stop"]).
Proof.
  split.
  - split; [reflexivity|].
    apply (proj1 (proj2 (@send_outcome exampleCodec
                           (JObj [("op", JStr "stop"); ("guildId", JStr "guild")])
                           (disconnected (dropSocket 0 (constructor exampleOptions)))))).
    reflexivity.
  - split; [reflexivity|]. split; [reflexivity|].
    apply (proj1 (proj2 (proj2 (@send_outcome exampleCodec
                           (JObj [("op", JStr "stop"); ("guildId", JStr "guild")])
                           (constructor exampleOptions)))) 0%nat).
    reflexivity.
Defined.

(** C5 as stated fails: a stats payload replaces the load snapshot and is
    forwarded through the message signal all the same. *)
Lemma stats_payload_is_forwarded :
  let data := JObj [("op", JStr "stats"); ("players", JNum 3);
                    ("playingPlayers", JNum 1)] in
  let r := @onMessage exampleCodec "stats" (constructor exampleOptions) in
  @JSON_parse exampleCodec "stats" = Some data
  /\ stats (snd r) = data
  /\ signals (snd r) = [SigMessage data].
Proof. repeat split. Qed.

Lemma onMessage_outcome_witness :
  let data := JObj [("op", JStr "stats"); ("players", JNum 3);
                    ("playingPlayers", JNum 1)] in
  let n := constructor exampleOptions in
  (signals (snd (@onMessage exampleCodec "garbage" n))
   = signals n ++ [SigError "Unable to parse ws message."])
  /\ (signals (snd (@onMessage exampleCodec "stats" n))
      = signals n ++ [SigMessage data]).
Proof.
  split.
  - apply (proj1 (@onMessage_outcome exampleCodec "garbage"
                    (constructor exampleOptions))).
    reflexivity.
  - apply (proj2 (@onMessage_outcome exampleCodec "stats"
                    (constructor exampleOptions))
             (JObj [("op", JStr "stats"); ("players", JNum 3);
                    ("playingPlayers", JNum 1)])).
    + reflexivity.
    + discriminate.
Defined.

End LavalinkCases.

(** * Properties of the player *)

Section PlayerFacts.
Context {codec : JSONCodec}.
Import Player.

Ltac unfold_player :=
  unfold exec, disconnect, _disconnect, onTrackStuck, connect, play, pause,
    resume, stop, switchChannel, runTick, checkEventQueue, queueEvent,
    setPause, setEqualizer, destroy, seek, setVolume, stateUpdate,
    onTrackEnd, onTrackException, updateVoiceState, sendEvent, nodeSend,
    nextTick, emit, record in *.

Ltac split_cases :=
  repeat (match goal with
          | |- context [match ?x with _ => _ end] => is_var x; destruct x
          | |- context [negb ?b] => is_var b; destruct b
          | |- context [andb ?a _] => is_var a; destruct a
          | |- context [Lavalink.draining ?n] => destruct (Lavalink.draining n)
          | |- context [has_sendWS ?s] => destruct (has_sendWS s)
          | |- context [String.eqb ?a ?b] => destruct (String.eqb a b)
          | |- context [replaced ?m] => destruct (replaced m)
          | |- context [Lavalink.step ?e ?n] => destruct (Lavalink.step e n)
          end; cbn).

Lemma player_run_app (a b : list Op) (w : t) : run (a ++ b) w = run b (run a w).
Proof. apply fold_left_app. Qed.

(** *** The send queue stays empty *)

Lemma exec_sendQueue (o : Op) (w : t) :
  sendQueue w = [] -> sendQueue (exec o w) = [].
Proof.
  intros H.
  destruct w as [i n h g c m op r pl pa sh st tr q ts lt po tk lg].
  simpl in H; subst q.
  destruct o; unfold_player; cbn; split_cases; reflexivity.
Qed.

Lemma run_sendQueue (ops : list Op) (w : t) :
  sendQueue w = [] -> sendQueue (run ops w) = [].
Proof.
  revert w; induction ops as [|o ops IH]; intros w H; simpl; [exact H|].
  apply IH, exec_sendQueue, H.
Qed.

Lemma reachable_sendQueue (w : t) : reachable w -> sendQueue w = [].
Proof.
  intros [ident [data [now [ops ->]]]]. apply run_sendQueue. reflexivity.
Qed.

(** C10: after any sequence of operations on a constructed player the send
    queue is empty, so [queueEvent] always takes the immediate-send path, it
    never leaves anything in the queue, and [checkEventQueue] finds nothing
    to take off it. *)
Theorem sendQueue_always_empty (ident : string) (data : Data) (now : Z)
    (ops : list Op) :
  let w := run ops (constructor ident data now) in
  sendQueue w = []
  /\ (forall d, queueEvent d w = sendEvent d w)
  /\ (forall d, sendQueue (queueEvent d w) = [])
  /\ checkEventQueue w = w.
Proof.
  intros w.
  assert (H : sendQueue w = []) by (apply run_sendQueue; reflexivity).
  split; [exact H|].
  split; [intros d; unfold queueEvent; rewrite H; reflexivity|].
  split; [intros d; apply (exec_sendQueue (OpQueueEvent d)), H|].
  unfold checkEventQueue; rewrite H; reflexivity.
Qed.

(** *** The effect log only grows *)

Lemma exec_log (o : Op) (w : t) : exists l, log (exec o w) = log w ++ l.
Proof.
  destruct w as [i n h g c m op r pl pa sh st tr q ts lt po tk lg].
  destruct o; unfold_player; cbn; split_cases;
    first [ exists []; rewrite app_nil_r; reflexivity
          | rewrite <- ?app_assoc; eexists; reflexivity ].
Qed.

Lemma run_log (ops : list Op) (w : t) : exists l, log (run ops w) = log w ++ l.
Proof.
  revert w; induction ops as [|o ops IH]; intros w; simpl.
  - exists []; rewrite app_nil_r; reflexivity.
  - destruct (IH (exec o w)) as [l2 H2]. destruct (exec_log o w) as [l1 H1].
    exists (l1 ++ l2). rewrite H2, H1, app_assoc. reflexivity.
Qed.

Lemma delivered_log (w v : t) (l : list Effect) :
  log v = log w ++ l ->
  delivered v
  = delivered w
    ++ flat_map (fun e => match e with NodeSend d => [d] | _ => [] end) l.
Proof. intros H. unfold delivered. rewrite H, flat_map_app. reflexivity. Qed.

(** *** First in, first out *)

Lemma queueEvent_effect (d : Json) (v : t) :
  match sendQueue v with
  | [] =>
      delivered (queueEvent d v) = delivered v ++ [d]
      /\ sendQueue (queueEvent d v) = []
      /\ ticks (queueEvent d v) = ticks v ++ [TickCheckEventQueue]
  | _ :: _ =>
      delivered (queueEvent d v) = delivered v
      /\ sendQueue (queueEvent d v) = sendQueue v ++ [d]
      /\ ticks (queueEvent d v) = ticks v
  end.
Proof.
  destruct v as [i n h g c m op r pl pa sh st tr q ts lt po tk lg].
  destruct q; unfold queueEvent, sendEvent, nodeSend, nextTick, record, delivered;
    cbn; repeat split.
  rewrite flat_map_app. reflexivity.
Qed.

Lemma checkEventQueue_effect (v : t) :
  match sendQueue v with
  | [] => checkEventQueue v = v
  | head :: rest =>
      delivered (checkEventQueue v) = delivered v ++ [head]
      /\ sendQueue (checkEventQueue v) = rest
      /\ ticks (checkEventQueue v) = ticks v ++ [TickCheckEventQueue]
  end.
Proof.
  destruct v as [i n h g c m op r pl pa sh st tr q ts lt po tk lg].
  destruct q; unfold checkEventQueue, sendEvent, nodeSend, nextTick, record,
    delivered; cbn; repeat split.
  rewrite flat_map_app. reflexivity.
Qed.

Lemma queueEvent_order (d : Json) (v : t) :
  delivered (queueEvent d v) ++ sendQueue (queueEvent d v)
  = delivered v ++ sendQueue v ++ [d].
Proof.
  pose proof (queueEvent_effect d v) as H.
  destruct (sendQueue v); destruct H as [Hd [Hq _]]; rewrite Hd, Hq.
  - rewrite app_nil_r. reflexivity.
  - reflexivity.
Qed.

Lemma runTick_order (v : t) :
  delivered (runTick v) ++ sendQueue (runTick v) = delivered v ++ sendQueue v.
Proof.
  unfold runTick. destruct (ticks v) as [|tk rest] eqn:Ht; [reflexivity|].
  destruct tk.
  - pose proof (checkEventQueue_effect (set_ticks rest v)) as H.
    change (sendQueue (set_ticks rest v)) with (sendQueue v) in H.
    change (delivered (set_ticks rest v)) with (delivered v) in H.
    destruct (sendQueue v) as [|head q] eqn:Hq0.
    + rewrite H. change (delivered v ++ sendQueue v = delivered v ++ []).
      rewrite Hq0. reflexivity.
    + destruct H as [Hd [Hq _]]. rewrite Hd, Hq, <- app_assoc. reflexivity.
  - unfold emit, record, delivered; cbn. rewrite flat_map_app, app_nil_r.
    reflexivity.
  - unfold emit, record, delivered; cbn. rewrite flat_map_app, app_nil_r.
    reflexivity.
Qed.

Lemma schedule_order (s : list (option Json)) (v : t) :
  delivered (run (schedule s) v) ++ sendQueue (run (schedule s) v)
  = delivered v ++ sendQueue v ++ enqueued s.
Proof.
  revert v; induction s as [|a s IH]; intros v; simpl.
  - rewrite app_nil_r. reflexivity.
  - rewrite IH. destruct a as [d|]; simpl.
    + rewrite app_assoc, queueEvent_order, <- !app_assoc. reflexivity.
    + rewrite app_assoc, runTick_order, <- app_assoc. reflexivity.
Qed.

Lemma schedule_sendQueue (s : list (option Json)) (v : t) :
  sendQueue v = [] -> sendQueue (run (schedule s) v) = [].
Proof. apply run_sendQueue. Qed.

Lemma connect_log (cd : ConnectData) (w : t) :
  sendQueue w = [] ->
  log (connect cd w) = log w ++ [Emit SigConnect; NodeSend (voiceUpdate cd)]
  /\ sendQueue (connect cd w) = []
  /\ ticks (connect cd w) = ticks w ++ [TickCheckEventQueue; TickEmitReady].
Proof.
  destruct w as [i n h g c m op r pl pa sh st tr q ts lt po tk lg].
  simpl; intros ->. unfold_player; cbn.
  rewrite <- !app_assoc. repeat split.
Qed.

Lemma play_log (trackId : string) (opts : option Obj) (now : Z) (w : t) :
  sendQueue w = [] ->
  log (snd (play trackId opts now w))
  = log w ++ (if Lavalink.draining (node w)
              then (if manager w then [SwitchNode] else [])
              else [NodeSend (playPayload w trackId opts)]).
Proof.
  destruct w as [i n h g c m op r pl pa sh st tr q ts lt po tk lg].
  simpl; intros ->. unfold_player; cbn.
  destruct (Lavalink.draining n); cbn; [|reflexivity].
  destruct m; cbn; [reflexivity | rewrite app_nil_r; reflexivity].
Qed.

(** C2, as amended: [queueEvent] appends the payload to the tail of the
    pending queue when that queue is not empty, and otherwise hands it to the
    node at once and schedules a queue check for the next turn; a queue check
    takes the head of the queue, if any, and hands it to the node.  Whatever
    the schedule of [queueEvent] calls and turns, the payloads handed over so
    far followed by those still pending are the payloads in the order they
    were enqueued; on a constructed player nothing is ever pending, so each
    payload is handed over when it is enqueued; and the voiceUpdate of
    [connect] is handed over before the payload of any later [play]. *)
Theorem queue_order (ident : string) (data : Data) (now : Z) (ops : list Op) :
  let w := run ops (constructor ident data now) in
  (forall d v,
      match sendQueue v with
      | [] =>
          delivered (queueEvent d v) = delivered v ++ [d]
          /\ sendQueue (queueEvent d v) = []
          /\ ticks (queueEvent d v) = ticks v ++ [TickCheckEventQueue]
      | _ :: _ =>
          delivered (queueEvent d v) = delivered v
          /\ sendQueue (queueEvent d v) = sendQueue v ++ [d]
          /\ ticks (queueEvent d v) = ticks v
      end)
  /\ (forall v,
         match sendQueue v with
         | [] => checkEventQueue v = v
         | head :: rest =>
             delivered (checkEventQueue v) = delivered v ++ [head]
             /\ sendQueue (checkEventQueue v) = rest
             /\ ticks (checkEventQueue v) = ticks v ++ [TickCheckEventQueue]
         end)
  /\ (forall s v,
         delivered (run (schedule s) v) ++ sendQueue (run (schedule s) v)
         = delivered v ++ sendQueue v ++ enqueued s)
  /\ (forall s, delivered (run (schedule s) w) = delivered w ++ enqueued s)
  /\ (forall cd between trackId opts now',
         let w2 := run between (connect cd w) in
         exists mid,
           delivered (snd (play trackId opts now' w2))
           = delivered w ++ voiceUpdate cd :: mid
             ++ (if Lavalink.draining (node w2) then []
                 else [playPayload w2 trackId opts])).
Proof.
  intros w.
  assert (Hw : sendQueue w = []) by (apply run_sendQueue; reflexivity).
  split; [exact queueEvent_effect|].
  split; [exact checkEventQueue_effect|].
  split; [exact schedule_order|].
  split.
  - intros s. pose proof (schedule_order s w) as H.
    rewrite (schedule_sendQueue s w Hw), Hw, app_nil_r in H. exact H.
  - intros cd between trackId opts now' w2.
    destruct (connect_log cd w Hw) as [Hc [Hq _]].
    destruct (run_log between (connect cd w)) as [l Hl]. fold w2 in Hl.
    assert (Hq2 : sendQueue w2 = []) by (apply run_sendQueue; exact Hq).
    pose proof (play_log trackId opts now' w2 Hq2) as Hp.
    rewrite Hl, Hc, <- !app_assoc in Hp.
    exists (flat_map (fun e => match e with NodeSend d => [d] | _ => [] end) l).
    rewrite (delivered_log w _ _ Hp). f_equal.
    cbn. f_equal. rewrite flat_map_app. f_equal.
    destruct (Lavalink.draining (node w2)); [|reflexivity].
    destruct (manager w2); reflexivity.
Qed.

(** *** Scheduling turns run out *)

Lemma runTicks_S (fuel : nat) (w : t) (tk : Tick) (tks : list Tick) :
  ticks w = tk :: tks -> runTicks (S fuel) w = runTicks fuel (runTick w).
Proof. intros H. simpl. rewrite H. reflexivity. Qed.

Lemma runTick_measure (w : t) (tk : Tick) (tks : list Tick) :
  ticks w = tk :: tks ->
  (List.length (ticks (runTick w)) + List.length (sendQueue (runTick w)) + 1
   <= List.length (ticks w) + List.length (sendQueue w))%nat.
Proof.
  destruct w as [i n h g c m op r pl pa sh st tr q ts lt po tk0 lg].
  cbn; intros ->. unfold_player; cbn.
  destruct tk; [destruct q|..]; cbn; rewrite ?length_app; cbn; lia.
Qed.

Lemma runTicks_quiescent (fuel : nat) (w : t) :
  (List.length (ticks w) + List.length (sendQueue w) <= fuel)%nat ->
  ticks (runTicks fuel w) = [].
Proof.
  revert w; induction fuel as [|fuel IH]; intros w H.
  - simpl. destruct (ticks w); [reflexivity | simpl in H; lia].
  - destruct (ticks w) as [|tk tks] eqn:Ht.
    + simpl. rewrite Ht. exact Ht.
    + rewrite (runTicks_S fuel w tk tks Ht). apply IH.
      pose proof (runTick_measure w tk tks Ht) as Hm.
      rewrite Ht in Hm. lia.
Qed.

(** [drain] always reaches a state with no callback pending. *)
Lemma drain_quiescent (w : t) : ticks (drain w) = [].
Proof. apply runTicks_quiescent. lia. Qed.

Lemma runTicks_empty_queue (tks : list Tick) :
  forall (w : t) (fuel : nat),
    ticks w = tks -> sendQueue w = [] -> (List.length tks <= fuel)%nat ->
    runTicks fuel w = set_ticks [] (set_log (log w ++ tickSignals tks) w).
Proof.
  induction tks as [|tk tks IH]; intros w fuel Ht Hq Hf.
  - assert (Hw : runTicks fuel w = w)
      by (destruct fuel; simpl; [|rewrite Ht]; reflexivity).
    rewrite Hw.
    destruct w as [i n h g c m op r pl pa sh st tr q ts lt po tk0 lg].
    cbn in Ht; subst tk0. unfold set_ticks, set_log; cbn.
    rewrite app_nil_r. reflexivity.
  - destruct fuel as [|fuel]; [simpl in Hf; lia|].
    rewrite (runTicks_S fuel w tk tks Ht).
    rewrite (IH (runTick w) fuel).
    + destruct w as [i n h g c m op r pl pa sh st tr q ts lt po tk0 lg].
      cbn in Ht, Hq; subst tk0 q. unfold_player; cbn.
      destruct tk; cbn; unfold set_ticks, set_log; cbn;
        rewrite <- ?app_assoc; reflexivity.
    + destruct w as [i n h g c m op r pl pa sh st tr q ts lt po tk0 lg].
      cbn in Ht, Hq; subst tk0 q. unfold_player; cbn.
      destruct tk; reflexivity.
    + apply (exec_sendQueue OpTick), Hq.
    + simpl in Hf; lia.
Qed.

Lemma drain_empty_queue (w : t) :
  sendQueue w = [] ->
  drain w = set_ticks [] (set_log (log w ++ tickSignals (ticks w)) w).
Proof.
  intros Hq. unfold drain. apply runTicks_empty_queue; [reflexivity|exact Hq|lia].
Qed.

(** *** The voice handshake and the ready signal *)

(** C3, as amended: on a constructed player [connect] emits the connect
    signal and hands the voiceUpdate to the node at once (nothing is pending
    before it, and whatever later operations hand over comes after it); the
    ready signal is not emitted by [connect] itself but by a callback that
    runs on a following turn, once the callbacks scheduled before it have
    run. *)
Theorem connect_then_ready (ident : string) (data : Data) (now : Z)
    (ops : list Op) (cd : ConnectData) :
  let w := run ops (constructor ident data now) in
  log (connect cd w) = log w ++ [Emit SigConnect; NodeSend (voiceUpdate cd)]
  /\ sendQueue (connect cd w) = []
  /\ ticks (connect cd w) = ticks w ++ [TickCheckEventQueue; TickEmitReady]
  /\ (forall later, exists l,
         log (run later (connect cd w))
         = log w ++ [Emit SigConnect; NodeSend (voiceUpdate cd)] ++ l)
  /\ ticks (drain (connect cd w)) = []
  /\ log (drain (connect cd w))
     = log w ++ [Emit SigConnect; NodeSend (voiceUpdate cd)]
       ++ tickSignals (ticks w) ++ [Emit SigReady].
Proof.
  intros w.
  assert (Hw : sendQueue w = []) by (apply run_sendQueue; reflexivity).
  destruct (connect_log cd w Hw) as [Hl [Hq Ht]].
  split; [exact Hl|]. split; [exact Hq|]. split; [exact Ht|].
  split.
  - intros later. destruct (run_log later (connect cd w)) as [l H].
    exists l. rewrite H, Hl, <- app_assoc. reflexivity.
  - split; [apply drain_quiescent|].
    rewrite (drain_empty_queue _ Hq). cbn [log set_ticks set_log].
    rewrite Hl, Ht. unfold tickSignals. rewrite flat_map_app, <- !app_assoc.
    reflexivity.
Qed.

(** *** A stuck track *)

Lemma onTrackStuck_log (message : Obj) (w : t) :
  sendQueue w = [] ->
  log (onTrackStuck message w) = log w ++ [NodeSend (stopPayload w)]
  /\ sendQueue (onTrackStuck message w) = []
  /\ ticks (onTrackStuck message w)
     = ticks w ++ [TickCheckEventQueue; TickEmitEnd message].
Proof.
  destruct w as [i n h g c m op r pl pa sh st tr q ts lt po tk lg].
  simpl; intros ->. unfold_player; cbn.
  rewrite <- !app_assoc. repeat split.
Qed.

(** C9: on a constructed player [onTrackStuck] hands the stop command to the
    node before it returns and emits nothing itself; the end signal is
    emitted by a callback that runs on a following turn, after the stop. *)
Theorem stuck_stops_then_ends (ident : string) (data : Data) (now : Z)
    (ops : list Op) (message : Obj) :
  let w := run ops (constructor ident data now) in
  log (onTrackStuck message w) = log w ++ [NodeSend (stopPayload w)]
  /\ ticks (onTrackStuck message w)
     = ticks w ++ [TickCheckEventQueue; TickEmitEnd message]
  /\ ticks (drain (onTrackStuck message w)) = []
  /\ log (drain (onTrackStuck message w))
     = log w ++ [NodeSend (stopPayload w)]
       ++ tickSignals (ticks w) ++ [Emit (SigEnd message)].
Proof.
  intros w.
  assert (Hw : sendQueue w = []) by (apply run_sendQueue; reflexivity).
  destruct (onTrackStuck_log message w Hw) as [Hl [Hq Ht]].
  split; [exact Hl|]. split; [exact Ht|].
  split; [apply drain_quiescent|].
  rewrite (drain_empty_queue _ Hq). cbn [log set_ticks set_log].
  rewrite Hl, Ht. unfold tickSignals. rewrite flat_map_app, <- !app_assoc.
  reflexivity.
Qed.

(** *** Playing on a draining node *)

Lemma lookup_assign (k : string) (v : Json) (o : Obj) :
  lookup k (assign k v o) = Some v.
Proof.
  induction o as [|[k' v'] o IH]; simpl.
  - rewrite String.eqb_refl. reflexivity.
  - destruct (String.eqb k k') eqn:E; simpl; rewrite E; [reflexivity | exact IH].
Qed.

(** C7, as amended: when the bound node is draining, [play] hands nothing to
    the node, puts nothing in the queue and schedules nothing; it records the
    track and sets the cached position to 0; and when the player holds a
    manager it calls the manager's [switchNode] and returns.  (With
    [this.manager] null the call ends in a TypeError instead, after the
    same updates.) *)
Theorem play_while_draining (trackId : string) (opts : option Obj)
    (now : Z) (w : t) :
  Lavalink.draining (node w) = true ->
  let r := play trackId opts now w in
  delivered (snd r) = delivered w
  /\ sendQueue (snd r) = sendQueue w
  /\ ticks (snd r) = ticks w
  /\ node (snd r) = node w
  /\ lookup "position" (state (snd r)) = Some (JNum 0)
  /\ track (snd r) = Some trackId
  /\ lastTrack (snd r) = track w
  /\ log (snd r) = log w ++ (if manager w then [SwitchNode] else [])
  /\ fst r = (if manager w then Normal else Throw).
Proof.
  destruct w as [i n h g c m op r pl pa sh st tr q ts lt po tk lg].
  cbn; intros Hd. unfold play; cbn. rewrite Hd; cbn.
  destruct m; unfold delivered; cbn;
    rewrite ?flat_map_app, ?app_nil_r; cbn; rewrite ?app_nil_r;
    repeat split; apply lookup_assign.
Qed.

(** Without a manager the same call ends in a TypeError, still without
    handing anything to the node. *)
Lemma play_without_manager_throws (trackId : string)
    (opts : option Obj) (now : Z) (w : t) :
  Lavalink.draining (node w) = true ->
  manager w = false ->
  fst (play trackId opts now w) = Throw
  /\ log (snd (play trackId opts now w)) = log w
  /\ sendQueue (snd (play trackId opts now w)) = sendQueue w.
Proof.
  destruct w as [i n h g c m op r pl pa sh st tr q ts lt po tk lg].
  cbn; intros Hd ->. unfold play; cbn. rewrite Hd; cbn. repeat split.
Qed.

(** *** The end of a track *)

Lemma replaced_reason (message : Obj) :
  replaced message = true <-> lookup "reason" message = Some (JStr "REPLACED").
Proof.
  unfold replaced, getProp, strictEqStr.
  destruct (lookup "reason" message) as [[| | |s| |]|]; split; intros H;
    try discriminate H.
  - apply String.eqb_eq in H. subst s. reflexivity.
  - injection H as ->. reflexivity.
Qed.

(** C8: [onTrackEnd] emits the end signal in every case; when the reason is
    REPLACED the playing flag and the current and previous tracks stay as
    they are, and otherwise the playing flag and the current track are
    cleared and the track that ended becomes the previous one. *)
Theorem onTrackEnd_effect (message : Obj) (w : t) :
  log (onTrackEnd message w) = log w ++ [Emit (SigEnd message)]
  /\ if replaced message
     then playing (onTrackEnd message w) = playing w
          /\ track (onTrackEnd message w) = track w
          /\ lastTrack (onTrackEnd message w) = lastTrack w
     else playing (onTrackEnd message w) = false
          /\ track (onTrackEnd message w) = None
          /\ lastTrack (onTrackEnd message w) = track w.
Proof.
  unfold onTrackEnd. destruct (replaced message); cbn; repeat split.
Qed.

End PlayerFacts.

(** ** Worked cases for the player *)

Section PlayerCases.
Import Player.

(** C2 as stated fails: right after a first command has been handed to the
    node, with its queue check still to run, a second [queueEvent] does not
    append to the queue but hands its payload over immediately; the contract
    as worded keeps that second payload pending. *)
Lemma second_command_is_sent_not_queued :
  let a := JObj [("op", JStr "stop"); ("guildId", JStr "guild")] in
  let b := JObj [("op", JStr "destroy"); ("guildId", JStr "guild")] in
  let w1 := @queueEvent exampleCodec a examplePlayer in
  let w2 := @queueEvent exampleCodec b w1 in
  let q2 := Contract.queueEvent_spec b (Contract.queueEvent_spec a Contract.fresh) in
  inFlight w1 = true
  /\ sendQueue w2 = []
  /\ delivered w2 = [a; b]
  /\ Contract.pending q2 = [b]
  /\ Contract.sent q2 = [a].
Proof. vm_compute. repeat split. Qed.

(** C3 as stated fails: on a node whose socket has closed the voiceUpdate is
    dropped, nothing reaches the wire, and the ready signal fires on the
    next turn all the same. *)
Lemma ready_fires_after_dropped_voiceUpdate :
  let w0 := @run exampleCodec [OpNodeEvent (Lavalink.EvClose 0)] examplePlayer in
  let w := @drain exampleCodec (@connect exampleCodec exampleConnect w0) in
  Lavalink.ws (node w0) = None
  /\ Lavalink.frames (node w) = []
  /\ log w = [Emit SigConnect; NodeSend (@voiceUpdate exampleConnect);
              Emit SigReady].
Proof. vm_compute. repeat split. Qed.

(** C7 as stated fails: a player constructed without a manager, on a
    draining node, resets the position and then ends [play] in a TypeError;
    [switchNode] is never called. *)
Lemma play_without_manager_skips_switchNode :
  let w := @run exampleCodec [OpNodeEvent (Lavalink.SetDraining true)]
             (constructor "guild" exampleDataNoManager 0) in
  let r := @play exampleCodec "track" None 7 w in
  Lavalink.draining (node w) = true
  /\ manager w = false
  /\ fst r = Throw
  /\ log (snd r) = []
  /\ lookup "position" (state (snd r)) = Some (JNum 0).
Proof. vm_compute. repeat split. Qed.

Lemma play_while_draining_witness :
  let w := @run exampleCodec [OpNodeEvent (Lavalink.SetDraining true)]
             examplePlayer in
  let r := @play exampleCodec "track" None 7 w in
  Lavalink.draining (node w) = true
  /\ delivered (snd r) = delivered w
  /\ sendQueue (snd r) = sendQueue w
  /\ ticks (snd r) = ticks w
  /\ node (snd r) = node w
  /\ lookup "position" (state (snd r)) = Some (JNum 0)
  /\ track (snd r) = Some "track"
  /\ lastTrack (snd r) = track w
  /\ log (snd r) = log w ++ [SwitchNode]
  /\ fst r = Normal.
Proof.
  split; [reflexivity|].
  apply (@play_while_draining exampleCodec "track" None 7
           (@run exampleCodec [OpNodeEvent (Lavalink.SetDraining true)]
              examplePlayer)).
  reflexivity.
Defined.

End PlayerCases.

(** * More on the node connection *)

Section LavalinkMore.
Context {codec : JSONCodec}.
Import Lavalink.

Ltac node_unfold :=
  unfold step, ready, disconnected, reconnect, destroy, send, onMessage,
    connect, removeCloseListener, setTimeout, clearTimeout, emit, record,
    fire, dropSocket, armed, findSocket, retryInterval; cbn.

Ltac node_split :=
  repeat (match goal with
          | |- context [match ?x with _ => _ end] =>
              lazymatch x with
              | context [match _ with _ => _ end] => fail
              | _ => destruct x eqn:?
              end
          end; cbn).

Lemma reachable_invariant (P : t -> Prop) :
  (forall options, P (constructor options)) ->
  (forall e n n', P n -> step e n = Some n' -> P n') ->
  forall n, reachable n -> P n.
Proof.
  intros Hinit Hstep n [options [evs Hrun]].
  revert Hrun. generalize (Hinit options). generalize (constructor options).
  induction evs as [|e evs IH]; intros m Hm Hrun; simpl in Hrun.
  - injection Hrun as <-. exact Hm.
  - destruct (step e m) as [m'|] eqn:Hs; [|discriminate].
    apply (IH m'); [apply (Hstep e m) |]; assumption.
Qed.

Lemma step_static (e : Event) (n n' : t) :
  step e n = Some n' ->
  port n' = port n /\ reconnectTimeout n' = reconnectTimeout n
  /\ password n' = password n /\ region n' = region n /\ host n' = host n.
Proof.
  destruct n as [h p rg u ns pw c d r rt ri st w sk tm nsk ntm lg].
  destruct e; node_unfold; node_split; intros H; try discriminate H;
    injection H as <-; repeat split.
Qed.

Lemma orZ_nonzero (x : option Z) (dflt : Z) : dflt <> 0 -> orZ x dflt <> 0.
Proof.
  intros Hd. unfold orZ. destruct x as [v|]; [|exact Hd].
  destruct (Z.eqb_spec v 0); assumption.
Qed.

Lemma orStr_nonempty (x : option string) (dflt : string) :
  dflt <> "" -> orStr x dflt <> "".
Proof.
  intros Hd. unfold orStr. destruct x as [v|]; [|exact Hd].
  destruct (String.eqb_spec v ""); assumption.
Qed.

Lemma run_static (evs : list Event) (n n' : t) :
  run evs n = Some n' ->
  port n' = port n /\ reconnectTimeout n' = reconnectTimeout n
  /\ password n' = password n /\ region n' = region n /\ host n' = host n.
Proof.
  revert n; induction evs as [|e evs IH]; intros n H; simpl in H.
  - injection H as <-. repeat split.
  - destruct (step e n) as [m|] eqn:Hs; [|discriminate].
    destruct (IH m H) as [-> [-> [-> [-> ->]]]].
    exact (step_static e n m Hs).
Qed.

(** X1: the defaults of the constructor hold for good: in every state the
    node reaches, the port and the reconnect timeout are what was configured,
    or 80 and 5000 when that was missing or 0, the password is what was
    configured or the stock one when that was missing or empty; so the port
    and the timeout are never 0, the password is never empty and the region
    is never the empty text. *)
Theorem configuration_defaults (options : Options) (evs : list Event) (n : t) :
  run evs (constructor options) = Some n ->
  port n = orZ (o_port options) 80
  /\ reconnectTimeout n = orZ (o_timeout options) 5000
  /\ password n = orStr (o_password options) "youshallnotpass"
  /\ port n <> 0 /\ reconnectTimeout n <> 0 /\ password n <> ""
  /\ region n <> Some "".
Proof.
  intros Hrun.
  destruct (run_static evs _ _ Hrun) as [-> [-> [-> [-> _]]]]. cbn.
  split; [reflexivity|]. split; [reflexivity|]. split; [reflexivity|].
  split; [apply orZ_nonzero; lia|].
  split; [apply orZ_nonzero; lia|].
  split; [apply orStr_nonempty; discriminate|].
  unfold orNull. destruct (o_region options) as [v|]; [|discriminate].
  destruct (String.eqb_spec v ""); [discriminate|congruence].
Qed.

Lemma retries_step (e : Event) (n n' : t) :
  0 <= retries n -> step e n = Some n' -> 0 <= retries n'.
Proof.
  destruct n as [h p rg u ns pw c d r rt ri st w sk tm nsk ntm lg].
  cbn; intros Hr.
  destruct e; node_unfold; node_split; intros H; try discriminate H;
    injection H as <-; cbn; lia.
Qed.

Lemma backoff_bounds (r : Z) : 0 <= r -> 16000 <= backoff r <= 100000.
Proof.
  intros Hr. unfold backoff.
  assert (Hm : -1 <= Z.min (r - 1) 5 <= 5) by lia.
  rewrite Z.pow_2_r. nia.
Qed.

Lemma backoff_monotone (r r' : Z) : 0 <= r <= r' -> backoff r <= backoff r'.
Proof.
  intros Hr. unfold backoff. rewrite !Z.pow_2_r.
  assert (H1 : -1 <= Z.min (r - 1) 5 <= Z.min (r' - 1) 5) by lia.
  nia.
Qed.

(** X2: in every state the node can reach the retry counter is not negative,
    so the interval [retryInterval] computes lies between 16000 ms and
    100000 ms, and it does not shrink when the counter grows. *)
Theorem retryInterval_bounds (n : t) :
  reachable n ->
  0 <= retries n
  /\ 16000 <= retryInterval n <= 100000
  /\ retryInterval n <= retryInterval (set_retries (retries n + 1) n).
Proof.
  intros Hr.
  assert (H0 : 0 <= retries n).
  { revert n Hr. apply (reachable_invariant (fun n => 0 <= retries n)).
    - intros options. cbn. lia.
    - intros e m m'. apply retries_step. }
  split; [exact H0|]. split.
  - apply (backoff_bounds (retries n) H0).
  - apply (backoff_monotone (retries n) (retries n + 1)). lia.
Qed.

Lemma idle_step (e : Event) (n n' : t) :
  timerInv n -> idleWhenConnected n -> step e n = Some n' ->
  idleWhenConnected n'.
Proof.
  intros Hinv Hidle Hs. destruct e; simpl in Hs.
  - destruct (findSocket s n); [|discriminate]. injection Hs as <-.
    intros _. destruct (timerInv_ready n Hinv) as [Ht Hi].
    split; [exact Ht|]. split; [reflexivity | exact Hi].
  - destruct (findSocket s n); [|discriminate]. injection Hs as <-.
    destruct (onMessage_frame message n) as [Ht Hi].
    unfold idleWhenConnected. rewrite Ht, Hi.
    replace (connected (snd (onMessage message n))) with (connected n);
      [replace (retries (snd (onMessage message n))) with (retries n);
       [exact Hidle|] |];
      unfold onMessage; destruct (JSON_parse message) as [data|];
      try reflexivity;
      destruct (getProp data "op"); try reflexivity;
      destruct (strictEqStr _ "stats"); reflexivity.
  - destruct (findSocket s n); [|discriminate]. injection Hs as <-.
    exact Hidle.
  - destruct (findSocket s n) as [k|]; [|discriminate]. injection Hs as <-.
    destruct (closeListener k); [|exact Hidle].
    intros Hc. exfalso. revert Hc. clear.
    destruct n as [h p rg u ns pw c d r rt [i|] st w sk tm nsk ntm lg];
      cbn; discriminate.
  - destruct (armed h n) eqn:Ha; [|discriminate]. injection Hs as <-.
    intros Hc. exfalso.
    assert (Hcn : connected n = true).
    { revert Hc. clear.
      destruct n as [h0 p rg u ns pw c d r rt ri st w sk tm nsk ntm lg].
      cbn. trivial. }
    destruct (Hidle Hcn) as [Ht _]. unfold armed in Ha. rewrite Ht in Ha.
    discriminate Ha.
  - injection Hs as <-. destruct (send_frame data n) as [Ht Hi].
    unfold idleWhenConnected. rewrite Ht, Hi.
    replace (connected (send data n)) with (connected n);
      [replace (retries (send data n)) with (retries n); [exact Hidle|] |];
      unfold send; destruct (ws n); try reflexivity;
      destruct (JSON_stringify data); reflexivity.
  - injection Hs as <-. destruct (destroy_frame n) as [Ht Hi].
    unfold idleWhenConnected. rewrite Ht, Hi.
    replace (connected (destroy n)) with (connected n);
      [replace (retries (destroy n)) with (retries n); [exact Hidle|] |];
      unfold destroy; destruct (ws n); reflexivity.
  - injection Hs as <-. exact Hidle.
Qed.

(** X3: whenever the node reports itself connected, no reconnect timer is
    armed, [reconnectInterval] is unset and the retry counter is 0; put the
    other way round, a pending reconnect means [connected] is false. *)
Theorem connected_means_idle (n : t) :
  reachable n ->
  connected n = true ->
  timers n = [] /\ retries n = 0 /\ reconnectInterval n = None.
Proof.
  intros Hr.
  assert (H : timerInv n /\ idleWhenConnected n).
  { revert n Hr.
    apply (reachable_invariant (fun n => timerInv n /\ idleWhenConnected n)).
    - intros options. split; [apply timerInv_constructor|].
      cbn. discriminate.
    - intros e m m' [Hinv Hidle] Hs. split.
      + apply (timerInv_step e m); assumption.
      + apply (idle_step e m); assumption. }
  exact (proj2 H).
Qed.

Lemma stats_step (e : Event) (n n' : t) :
  statsSnapshot n -> step e n = Some n' -> statsSnapshot n'.
Proof.
  unfold statsSnapshot.
  destruct n as [h p rg u ns pw c d r rt ri st w sk tm nsk ntm lg].
  cbn; intros HP.
  destruct e; node_unfold; node_split; intros H; try discriminate H;
    injection H as <-; cbn; try exact HP.
  all: right;
    match goal with H : getProp _ _ = _ |- _ => rewrite H end;
    cbn; assumption.
Qed.

(** X4: the load snapshot of a node is only ever replaced by an inbound
    payload whose [op] is [stats]: in every reachable state it is the initial
    snapshot or such a payload. *)
Theorem stats_only_from_stats_payloads (n : t) :
  reachable n ->
  stats n = initialStats
  \/ strictEqStr (getProp (stats n) "op") "stats" = true.
Proof.
  apply (reachable_invariant statsSnapshot).
  - intros options. left. reflexivity.
  - intros e m m'. apply stats_step.
Qed.

Lemma find_removeCloseListener (s : nat) (l : list Socket) (k : Socket) :
  find (fun x => Nat.eqb (sock_id x) s) l = Some k ->
  find (fun x => Nat.eqb (sock_id x) s)
       (map (fun x => if Nat.eqb (sock_id x) s
                      then {| sock_id := sock_id x; closeListener := false |}
                      else x) l)
  = Some {| sock_id := sock_id k; closeListener := false |}.
Proof.
  induction l as [|x l IH]; simpl; [discriminate|].
  destruct (Nat.eqb (sock_id x) s) eqn:E; simpl; rewrite E.
  - intros H; injection H as <-. reflexivity.
  - exact IH.
Qed.

(** X5: [destroy] takes the close listener off the current socket, so when
    that socket then closes nothing of the reconnect cycle starts: no timer
    is armed, no signal is emitted, and [connected], [retries] and [ws] stay
    as they were. *)
Theorem destroy_prevents_reconnect (n : t) (s : nat) (k : Socket) :
  ws n = Some s ->
  findSocket s n = Some k ->
  exists n',
    step (EvClose s) (destroy n) = Some n'
    /\ timers n' = timers n
    /\ delays n' = delays n
    /\ signals n' = signals n
    /\ reconnectInterval n' = reconnectInterval n
    /\ connected n' = connected n
    /\ retries n' = retries n
    /\ ws n' = ws n
    /\ findSocket s n' = None.
Proof.
  intros Hws Hk.
  destruct n as [h p rg u ns pw c d r rt ri st w sk tm nsk ntm lg].
  cbn in Hws; subst w. unfold findSocket in Hk; cbn in Hk.
  unfold step, destroy, findSocket; cbn.
  rewrite (find_removeCloseListener s sk k Hk); cbn.
  eexists; split; [reflexivity|]. cbn.
  unfold delays, signals, findSocket; cbn.
  rewrite !flat_map_app; cbn. rewrite !app_nil_r.
  repeat split.
  match goal with |- find ?f ?l = None => destruct (find f l) as [x|] eqn:E end;
    [|reflexivity].
  apply find_some in E. destruct E as [Hin Hx].
  apply filter_In in Hin. destruct Hin as [_ Hneg].
  rewrite Hx in Hneg. discriminate Hneg.
Qed.

Lemma failing_next_quiet (options : Options) (k : nat) (n : t) :
  failing options k n ->
  exists n', run [EvTimer k; EvClose (S k)] n = Some n'
             /\ signals n' = signals n
             /\ connected n' = false
             /\ ws n' = None
             /\ List.length (timers n') = 1%nat.
Proof.
  intros [Hr Hi Ht Hs Hns Hnt Hto Hd].
  destruct n as [h p rg u ns pw c d r rt ri st w sk tm nsk ntm lg].
  simpl in *; subst.
  destruct tm as [|[h0 d0] [|? ?]]; simpl in Ht; try discriminate.
  injection Ht as ->.
  unfold run, step, armed, fire; simpl. rewrite Nat.eqb_refl; simpl.
  unfold findSocket; simpl. rewrite Nat.eqb_refl; simpl.
  eexists; split; [reflexivity|].
  unfold signals; simpl. rewrite ?Nat.eqb_refl; simpl.
  rewrite !flat_map_app; simpl. rewrite !app_nil_r.
  repeat split.
Qed.

Lemma failing_run_quiet (options : Options) (k : nat) :
  exists n, run (failures (S k)) (constructor options) = Some n
            /\ failing options k n
            /\ signals n = [SigDisconnect]
            /\ connected n = false
            /\ ws n = None
            /\ List.length (timers n) = 1%nat.
Proof.
  induction k as [|k [n [Hrun [Hf [Hs _]]]]].
  - eexists; split; [reflexivity|].
    split; [constructor; reflexivity|]. repeat split.
  - destruct (failing_next options k n Hf) as [n1 [Hrun1 Hf1]].
    destruct (failing_next_quiet options k n Hf) as [n2 [Hrun2 [Hs2 H2]]].
    rewrite Hrun1 in Hrun2. injection Hrun2 as <-.
    exists n1. split; [rewrite failures_SS, node_run_app, Hrun; exact Hrun1|].
    split; [exact Hf1|]. split; [rewrite Hs2; exact Hs|exact H2].
Qed.

(** X6: however many times in a row a fresh node fails to open, it emits the
    disconnect signal once, at the first failure; after [k+1] failures it is
    not connected, holds no socket, has one reconnect timer armed, and its
    retry counter stands at [k]. *)
Theorem repeated_failures_disconnect_once (options : Options) (k : nat) :
  exists n,
    run (failures (S k)) (constructor options) = Some n
    /\ signals n = [SigDisconnect]
    /\ connected n = false
    /\ ws n = None
    /\ List.length (timers n) = 1%nat
    /\ retries n = Z.of_nat k.
Proof.
  destruct (failing_run_quiet options k) as [n [Hrun [Hf [Hs [Hc [Hw Ht]]]]]].
  exists n. repeat split; try assumption. exact (f_retries _ _ _ Hf).
Qed.

(** X7: a successful open puts the backoff back to its start: whatever the
    retry counter was, the disconnect after [ready] arms its timer with
    [reconnectTimeout], with the counter at 0, and the [reconnect] that
    follows arms the next one 16000 ms later. *)
Theorem ready_resets_backoff (n : t) :
  let m := disconnected (ready n) in
  delays m = delays n ++ [reconnectTimeout n]
  /\ retries m = 0
  /\ signals m = signals n ++ [SigReady; SigDisconnect]
  /\ delays (reconnect m) = delays n ++ [reconnectTimeout n; 16000].
Proof.
  destruct n as [h p rg u ns pw c d r rt [i|] st w sk tm nsk ntm lg];
    unfold delays, signals; node_unfold;
    rewrite !flat_map_app; cbn; rewrite ?app_nil_r, <- ?app_assoc;
    repeat split.
Qed.





End LavalinkMore.

(** * More on the player *)

Section PlayerMore.
Context {codec : JSONCodec}.
Import Player.

Ltac player_unfold :=
  unfold exec, disconnect, _disconnect, onTrackStuck, connect, play, pause,
    resume, stop, switchChannel, runTick, checkEventQueue, queueEvent,
    setPause, setEqualizer, destroy, seek, setVolume, stateUpdate,
    onTrackEnd, onTrackException, updateVoiceState, sendEvent, nodeSend,
    nextTick, emit, record in *.

Ltac player_split :=
  repeat (match goal with
          | |- context [match ?x with _ => _ end] => is_var x; destruct x
          | |- context [negb ?b] => is_var b; destruct b
          | |- context [andb ?a _] => is_var a; destruct a
          | |- context [Lavalink.draining ?n] => destruct (Lavalink.draining n)
          | |- context [has_sendWS ?s] => destruct (has_sendWS s)
          | |- context [String.eqb ?a ?b] => destruct (String.eqb a b)
          | |- context [replaced ?m] => destruct (replaced m)
          | |- context [Lavalink.step ?e ?n] => destruct (Lavalink.step e n)
          end; cbn).

(** X9: pausing a playing player and resuming it brings the flags back to
    playing and not paused, and hands the node a pause command followed by an
    unpause command, bypassing the queue. *)
Theorem pause_resume_round_trip (w : t) :
  playing w = true ->
  let w' := resume (pause w) in
  playing w' = true
  /\ paused w' = false
  /\ log w' = log w ++ [NodeSend (pausePayload (guildId w) true);
                        NodeSend (pausePayload (guildId w) false)]
  /\ sendQueue w' = sendQueue w
  /\ ticks w' = ticks w
  /\ track w' = track w.
Proof.
  destruct w as [i n h g c m op r pl pa sh st tr q ts lt po tk lg].
  cbn; intros ->. player_unfold; cbn.
  rewrite <- app_assoc. repeat split.
Qed.

(** X10: [pause] and [resume] are guarded: a second [pause] changes nothing
    and sends nothing, and neither does a second [resume]; [pause] leaves a
    player that is not playing as it is, and [resume] one that is not
    paused. *)
Theorem pause_resume_idempotent (w : t) :
  pause (pause w) = pause w
  /\ resume (resume w) = resume w
  /\ pause (set_playing false w) = set_playing false w
  /\ resume (set_paused false w) = set_paused false w.
Proof.
  destruct w as [i n h g c m op r pl pa sh st tr q ts lt po tk lg].
  destruct pl, pa; repeat split.
Qed.

Lemma exec_flags (o : Op) (w : t) :
  playing w && paused w = false ->
  playing (exec o w) && paused (exec o w) = false.
Proof.
  destruct w as [i n h g c m op r pl pa sh st tr q ts lt po tk lg].
  cbn; intros H.
  destruct o; player_unfold; cbn; player_split; cbn in *;
    solve [reflexivity | exact H | discriminate H
           | destruct pause; reflexivity].
Qed.

Lemma run_flags (ops : list Op) (w : t) :
  playing w && paused w = false ->
  playing (run ops w) && paused (run ops w) = false.
Proof.
  revert w; induction ops as [|o ops IH]; intros w H; simpl; [exact H|].
  apply IH, exec_flags, H.
Qed.

(** X11: a constructed player is never playing and paused at once, whatever
    operations, scheduling turns and node events it has gone through. *)
Theorem never_playing_and_paused (ident : string) (data : Data) (now : Z)
    (ops : list Op) :
  let w := run ops (constructor ident data now) in
  playing w && paused w = false.
Proof. apply run_flags. reflexivity. Qed.

Lemma exec_identity (o : Op) (w : t) :
  ready (exec o w) = ready w
  /\ id (exec o w) = id w
  /\ guildId (exec o w) = guildId w
  /\ hostname (exec o w) = hostname w
  /\ manager (exec o w) = manager w.
Proof.
  destruct w as [i n h g c m op r pl pa sh st tr q ts lt po tk lg].
  destruct o; player_unfold; cbn; player_split; repeat split.
Qed.

(** X12: no operation ever sets the [ready] flag: it is false in every state
    a constructed player reaches, also after [connect] and after the ready
    signal has fired; the player's id, guild id, hostname and manager
    reference stay what the constructor was given. *)
Theorem ready_flag_never_set (ident : string) (data : Data) (now : Z)
    (ops : list Op) :
  let w := run ops (constructor ident data now) in
  ready w = false
  /\ id w = ident
  /\ guildId w = d_guildId data
  /\ hostname w = d_hostname data
  /\ manager w = d_manager data.
Proof.
  cbn.
  assert (H : forall ops w,
             ready (run ops w) = ready w /\ id (run ops w) = id w
             /\ guildId (run ops w) = guildId w
             /\ hostname (run ops w) = hostname w
             /\ manager (run ops w) = manager w).
  { clear. induction ops as [|o ops IH]; intros w; simpl; [repeat split|].
    destruct (IH (exec o w)) as [-> [-> [-> [-> ->]]]].
    apply exec_identity. }
  apply (H ops (constructor ident data now)).
Qed.

Lemma lookup_assign_eq (k k' : string) (v : Json) (o : Obj) :
  lookup k (assign k' v o) = if String.eqb k k' then Some v else lookup k o.
Proof.
  induction o as [|[k0 v0] o IH]; simpl.
  - destruct (String.eqb k k'); reflexivity.
  - destruct (String.eqb_spec k' k0) as [->|Hne]; simpl.
    + destruct (String.eqb k k0); reflexivity.
    + rewrite IH. destruct (String.eqb_spec k k0) as [->|Hne'].
      * destruct (String.eqb_spec k0 k'); [congruence | reflexivity].
      * reflexivity.
Qed.

Lemma lookup_app (k : string) (a b : Obj) :
  lookup k (a ++ b)
  = match lookup k a with Some v => Some v | None => lookup k b end.
Proof.
  induction a as [|[k0 v0] a IH]; simpl; [reflexivity|].
  destruct (String.eqb k k0); [reflexivity | exact IH].
Qed.

Lemma lookup_fold_assign (k : string) (src target : Obj) :
  lookup k (fold_left (fun acc kv => assign (fst kv) (snd kv) acc) src target)
  = match lookup k (rev src) with
    | Some v => Some v
    | None => lookup k target
    end.
Proof.
  revert target; induction src as [|[k1 v1] src IH]; intros target; simpl.
  - reflexivity.
  - rewrite IH, lookup_app, lookup_assign_eq. simpl.
    destruct (lookup k (rev src)); [reflexivity|].
    destruct (String.eqb k k1); reflexivity.
Qed.

(** X13: in the payload [play] builds, an option of the caller wins over the
    built-in field of the same name, [op], [guildId] and [track] included,
    and among several options of one name the last wins; a field no option
    names keeps its built-in value; without options the payload is the three
    built-in fields. *)
Theorem play_options_override (w : t) (trackId : string) (src : Obj) (k : string) :
  getProp (playPayload w trackId (Some src)) k
  = match lookup k (rev src) with
    | Some v => Found v
    | None => getProp (playPayload w trackId None) k
    end.
Proof.
  unfold playPayload, getProp, Object_assign.
  rewrite lookup_fold_assign.
  destruct (lookup k (rev src)); reflexivity.
Qed.

(** X14: on a constructed player [disconnect] first unpauses a paused player
    directly, then hands the node a destroy and a stop command in that order,
    and emits the disconnect signal last; it leaves the player neither
    playing nor paused, without a current track, the former track remembered
    as the previous one. *)
Theorem disconnect_sequence (ident : string) (data : Data) (now : Z)
    (ops : list Op) (msg : Json) :
  let w := run ops (constructor ident data now) in
  log (disconnect msg w)
  = log w
    ++ (if paused w then [NodeSend (pausePayload (guildId w) false)] else [])
    ++ [NodeSend (destroyPayload (guildId w)); NodeSend (stopPayload w);
        Emit (SigDisconnect msg)]
  /\ playing (disconnect msg w) = false
  /\ paused (disconnect msg w) = false
  /\ track (disconnect msg w) = None
  /\ lastTrack (disconnect msg w) = track w
  /\ sendQueue (disconnect msg w) = [].
Proof.
  intros w.
  assert (Hw : sendQueue w = []) by (apply run_sendQueue; reflexivity).
  clearbody w.
  destruct w as [i n h g c m op r pl pa sh st tr q ts lt po tk lg].
  cbn in Hw; subst q. player_unfold; cbn.
  destruct pa; cbn; rewrite <- ?app_assoc; repeat split.
Qed.

(** X15: [stop] already moves the current track to [lastTrack]; when the
    node's track end event for that stop then arrives (any reason but
    REPLACED), [onTrackEnd] moves the now empty current track there again, so
    the previous track is forgotten. *)
Theorem stop_then_track_end_forgets_track (message : Obj) (w : t) :
  replaced message = false ->
  lastTrack (stop w) = track w
  /\ lastTrack (onTrackEnd message (stop w)) = None
  /\ track (onTrackEnd message (stop w)) = None
  /\ playing (onTrackEnd message (stop w)) = false.
Proof.
  intros Hr.
  destruct w as [i n h g c m op r pl pa sh st tr q ts lt po tk lg].
  unfold onTrackEnd. rewrite Hr. player_unfold; cbn.
  destruct q; repeat split.
Qed.

(** X16: [switchChannel] to the channel the player is already on does
    nothing at all, even when reactive; in every case the player ends up on
    the requested channel, a repeated call changes nothing more, and nothing
    is handed to the node. *)
Theorem switchChannel_idempotent (chan : string) (reactive : bool) (w : t) :
  switchChannel (channelId w) reactive w = w
  /\ channelId (switchChannel chan reactive w) = chan
  /\ switchChannel chan reactive (switchChannel chan reactive w)
     = switchChannel chan reactive w
  /\ delivered (switchChannel chan reactive w) = delivered w
  /\ node (switchChannel chan reactive w) = node w.
Proof.
  assert (H1 : forall v, switchChannel (channelId v) reactive v = v)
    by (intros v; unfold switchChannel; rewrite String.eqb_refl; reflexivity).
  assert (H2 : channelId (switchChannel chan reactive w) = chan).
  { unfold switchChannel.
    destruct (String.eqb_spec (channelId w) chan) as [E|E]; [exact E|].
    unfold updateVoiceState, record.
    destruct reactive; [destruct (has_sendWS _)|]; reflexivity. }
  split; [apply H1|]. split; [exact H2|]. split.
  - pose proof (H1 (switchChannel chan reactive w)) as H3.
    rewrite H2 in H3. exact H3.
  - destruct w as [i n h g c m op r pl pa sh st tr q ts lt po tk lg].
    unfold switchChannel, updateVoiceState, record, delivered; cbn.
    destruct (String.eqb c chan); cbn; [split; reflexivity|].
    destruct reactive; cbn; [|split; reflexivity].
    destruct (has_sendWS sh); cbn; [|split; reflexivity].
    rewrite flat_map_app, app_nil_r. split; reflexivity.
Qed.

Lemma runTicks_order (fuel : nat) (v : t) :
  delivered (runTicks fuel v) ++ sendQueue (runTicks fuel v)
  = delivered v ++ sendQueue v.
Proof.
  revert v; induction fuel as [|fuel IH]; intros v; simpl; [reflexivity|].
  destruct (ticks v) as [|tk tks] eqn:Ht; [reflexivity|].
  rewrite IH. apply runTick_order.
Qed.

Lemma runTick_covered (v : t) : queueCovered v -> queueCovered (runTick v).
Proof.
  unfold queueCovered, inFlight.
  destruct v as [i n h g c m op r pl pa sh st tr q ts lt po tk lg].
  cbn. destruct tk as [|[| |message] rest]; cbn; intros H.
  - exact H.
  - unfold checkEventQueue, sendEvent, nodeSend, nextTick, record; cbn.
    destruct q as [|a q]; cbn; intros Hq.
    + contradiction.
    + rewrite existsb_app. cbn. apply Bool.orb_true_r.
  - exact H.
  - exact H.
Qed.

Lemma runTicks_covered (fuel : nat) (v : t) :
  queueCovered v -> queueCovered (runTicks fuel v).
Proof.
  revert v; induction fuel as [|fuel IH]; intros v H; simpl; [exact H|].
  destruct (ticks v) as [|tk tks] eqn:Ht; [exact H|].
  apply IH, runTick_covered, H.
Qed.

Lemma runTick_stranded (v : t) :
  inFlight v = false ->
  inFlight (runTick v) = false /\ sendQueue (runTick v) = sendQueue v.
Proof.
  unfold inFlight.
  destruct v as [i n h g c m op r pl pa sh st tr q ts lt po tk lg].
  cbn. destruct tk as [|[| |message] rest]; cbn; intros H;
    try discriminate H; split; try reflexivity; exact H.
Qed.

Lemma runTicks_stranded (fuel : nat) (v : t) :
  inFlight v = false -> sendQueue (runTicks fuel v) = sendQueue v.
Proof.
  revert v; induction fuel as [|fuel IH]; intros v H; simpl; [reflexivity|].
  destruct (ticks v) as [|tk tks] eqn:Ht; [reflexivity|].
  destruct (runTick_stranded v H) as [H1 H2].
  rewrite (IH _ H1). exact H2.
Qed.

(** X17: the queue check does what it is there for, in any state of the
    player: running the pending callbacks to the end hands the queued
    commands to the node in queue order, behind what was handed over before,
    provided a queue check is scheduled; when none is scheduled the queued
    commands stay where they are for good. *)
Theorem drain_flushes_queue (v : t) :
  ticks (drain v) = []
  /\ delivered (drain v) ++ sendQueue (drain v) = delivered v ++ sendQueue v
  /\ if inFlight v
     then sendQueue (drain v) = []
          /\ delivered (drain v) = delivered v ++ sendQueue v
     else sendQueue (drain v) = sendQueue v
          /\ delivered (drain v) = delivered v.
Proof.
  pose proof (drain_quiescent v) as Hq.
  pose proof (runTicks_order
                (List.length (ticks v) + List.length (sendQueue v)) v) as Ho.
  fold (drain v) in Ho.
  split; [exact Hq|]. split; [exact Ho|].
  destruct (inFlight v) eqn:Hf.
  - assert (Hc : queueCovered (drain v)).
    { apply runTicks_covered. intros _. exact Hf. }
    assert (He : sendQueue (drain v) = []).
    { destruct (sendQueue (drain v)) as [|a q] eqn:E; [reflexivity|].
      exfalso. unfold queueCovered in Hc. rewrite E in Hc.
      assert (Ht : inFlight (drain v) = true) by (apply Hc; discriminate).
      unfold inFlight in Ht. rewrite Hq in Ht. discriminate Ht. }
    split; [exact He|]. rewrite He, app_nil_r in Ho. exact Ho.
  - assert (He : sendQueue (drain v) = sendQueue v)
      by (apply runTicks_stranded; exact Hf).
    split; [exact He|]. rewrite He in Ho.
    apply app_inv_tail in Ho. exact Ho.
Qed.

(** X18: on a constructed player whose node is not draining, [play] hands
    the play payload to the node at once, makes the player playing unless it
    is paused, records the track, the options and the former track, and
    restarts the clock [getTimestamp] reads. *)
Theorem play_on_serving_node (ident : string) (data : Data) (now0 : Z)
    (ops : list Op) (trackId : string) (opts : option Obj) (now later : Z) :
  let w := run ops (constructor ident data now0) in
  Lavalink.draining (node w) = false ->
  let r := play trackId opts now w in
  fst r = Normal
  /\ log (snd r) = log w ++ [NodeSend (playPayload w trackId opts)]
  /\ sendQueue (snd r) = []
  /\ playing (snd r) = negb (paused w)
  /\ paused (snd r) = paused w
  /\ track (snd r) = Some trackId
  /\ lastTrack (snd r) = track w
  /\ playOptions (snd r) = opts
  /\ getTimestamp later (snd r) = later - now.
Proof.
  intros w.
  assert (Hw : sendQueue w = []) by (apply run_sendQueue; reflexivity).
  clearbody w.
  destruct w as [i n h g c m op r pl pa sh st tr q ts lt po tk lg].
  cbn in Hw; subst q. cbn; intros Hd.
  unfold play, getTimestamp; cbn. rewrite Hd.
  player_unfold; cbn. repeat split.
Qed.

Lemma nodeCore_send (data : Json) (n : Lavalink.t) :
  nodeCore (Lavalink.send data n) = nodeCore n.
Proof.
  unfold Lavalink.send. destruct (Lavalink.ws n); [|reflexivity].
  destruct (JSON_stringify data); reflexivity.
Qed.

(** X19: the methods of the player and its scheduling turns leave the node's
    connection alone: whatever they send, the node's connected and draining
    flags, retry counter, reconnect timer, load snapshot and socket are what
    they were. *)
Theorem player_leaves_connection_alone (o : Op) (w : t) :
  if isPlayerOp o
  then nodeCore (node (exec o w)) = nodeCore (node w)
  else True.
Proof.
  destruct w as [i n h g c m op r pl pa sh st tr q ts lt po tk lg].
  destruct o; cbn [isPlayerOp]; try exact I;
    player_unfold; cbn; player_split; rewrite ?nodeCore_send; reflexivity.
Qed.

End PlayerMore.

(** ** Worked cases *)

Section MoreCases.

Lemma configuration_defaults_witness :
  let options :=
    {| Lavalink.o_host := "localhost"; Lavalink.o_port := Some 0;
       Lavalink.o_region := Some ""; Lavalink.o_numShards := 1;
       Lavalink.o_userId := "bot"; Lavalink.o_password := Some "";
       Lavalink.o_timeout := Some 0 |} in
  let n := Lavalink.disconnected
             (Lavalink.dropSocket 0 (Lavalink.constructor options)) in
  @Lavalink.run exampleCodec [Lavalink.EvClose 0] (Lavalink.constructor options)
  = Some n
  /\ Lavalink.port n = 80
  /\ Lavalink.reconnectTimeout n = 5000
  /\ Lavalink.password n = "youshallnotpass"
  /\ Lavalink.port n <> 0 /\ Lavalink.reconnectTimeout n <> 0
  /\ Lavalink.password n <> ""
  /\ Lavalink.region n <> Some "".
Proof.
  split; [vm_compute; reflexivity|].
  apply (@configuration_defaults exampleCodec
           {| Lavalink.o_host := "localhost"; Lavalink.o_port := Some 0;
              Lavalink.o_region := Some ""; Lavalink.o_numShards := 1;
              Lavalink.o_userId := "bot"; Lavalink.o_password := Some "";
              Lavalink.o_timeout := Some 0 |}
           [Lavalink.EvClose 0%nat]).
  vm_compute; reflexivity.
Defined.

Lemma retryInterval_bounds_witness :
  let n := Lavalink.constructor exampleOptions in
  @Lavalink.reachable exampleCodec n
  /\ 0 <= Lavalink.retries n
  /\ 16000 <= Lavalink.retryInterval n <= 100000
  /\ Lavalink.retryInterval n
     <= Lavalink.retryInterval
          (Lavalink.set_retries (Lavalink.retries n + 1) n).
Proof.
  assert (Hr : @Lavalink.reachable exampleCodec (Lavalink.constructor exampleOptions))
    by (exists exampleOptions, []; reflexivity).
  split; [exact Hr|].
  exact (@retryInterval_bounds exampleCodec _ Hr).
Defined.

Lemma connected_means_idle_witness :
  let n := Lavalink.ready (Lavalink.constructor exampleOptions) in
  @Lavalink.reachable exampleCodec n
  /\ Lavalink.connected n = true
  /\ Lavalink.timers n = [] /\ Lavalink.retries n = 0
  /\ Lavalink.reconnectInterval n = None.
Proof.
  assert (Hr : @Lavalink.reachable exampleCodec
                 (Lavalink.ready (Lavalink.constructor exampleOptions)))
    by (exists exampleOptions, [Lavalink.EvOpen 0%nat]; vm_compute; reflexivity).
  split; [exact Hr|]. split; [reflexivity|].
  exact (@connected_means_idle exampleCodec _ Hr eq_refl).
Defined.

Lemma stats_only_from_stats_payloads_witness :
  let n := snd (@Lavalink.onMessage exampleCodec "stats"
                  (Lavalink.constructor exampleOptions)) in
  @Lavalink.reachable exampleCodec n
  /\ (Lavalink.stats n = initialStats
      \/ strictEqStr (getProp (Lavalink.stats n) "op") "stats" = true).
Proof.
  assert (Hr : @Lavalink.reachable exampleCodec
                 (snd (@Lavalink.onMessage exampleCodec "stats"
                         (Lavalink.constructor exampleOptions))))
    by (exists exampleOptions, [Lavalink.EvMessage 0%nat "stats"];
        vm_compute; reflexivity).
  split; [exact Hr|].
  exact (@stats_only_from_stats_payloads exampleCodec _ Hr).
Defined.

Lemma destroy_prevents_reconnect_witness :
  let n := Lavalink.constructor exampleOptions in
  Lavalink.ws n = Some 0%nat
  /\ exists n',
       @Lavalink.step exampleCodec (Lavalink.EvClose 0) (Lavalink.destroy n)
       = Some n'
       /\ Lavalink.timers n' = Lavalink.timers n
       /\ Lavalink.delays n' = Lavalink.delays n
       /\ Lavalink.signals n' = Lavalink.signals n
       /\ Lavalink.reconnectInterval n' = Lavalink.reconnectInterval n
       /\ Lavalink.connected n' = Lavalink.connected n
       /\ Lavalink.retries n' = Lavalink.retries n
       /\ Lavalink.ws n' = Lavalink.ws n
       /\ Lavalink.findSocket 0 n' = None.
Proof.
  split; [reflexivity|].
  apply (@destroy_prevents_reconnect exampleCodec
           (Lavalink.constructor exampleOptions) 0%nat
           {| Lavalink.sock_id := 0%nat; Lavalink.closeListener := true |});
    reflexivity.
Defined.


Lemma pause_resume_round_trip_witness :
  let w := snd (@Player.play exampleCodec "track" None 5 examplePlayer) in
  let w' := @Player.resume exampleCodec (@Player.pause exampleCodec w) in
  Player.playing w = true
  /\ Player.playing w' = true
  /\ Player.paused w' = false
  /\ Player.log w'
     = Player.log w
       ++ [Player.NodeSend (pausePayload (Player.guildId w) true);
           Player.NodeSend (pausePayload (Player.guildId w) false)]
  /\ Player.sendQueue w' = Player.sendQueue w
  /\ Player.ticks w' = Player.ticks w
  /\ Player.track w' = Player.track w.
Proof.
  split; [reflexivity|].
  apply (@pause_resume_round_trip exampleCodec). reflexivity.
Defined.

Lemma stop_then_track_end_witness :
  let message := [("reason", JStr "STOPPED")] in
  let w := snd (@Player.play exampleCodec "track" None 5 examplePlayer) in
  Player.replaced message = false
  /\ Player.lastTrack (@Player.stop exampleCodec w) = Player.track w
  /\ Player.lastTrack (Player.onTrackEnd message (@Player.stop exampleCodec w))
     = None
  /\ Player.track (Player.onTrackEnd message (@Player.stop exampleCodec w))
     = None
  /\ Player.playing (Player.onTrackEnd message (@Player.stop exampleCodec w))
     = false.
Proof.
  split; [reflexivity|].
  apply (@stop_then_track_end_forgets_track exampleCodec). reflexivity.
Defined.

Lemma play_on_serving_node_witness :
  let w := @Player.run exampleCodec [] (Player.constructor "guild" exampleData 0) in
  let r := @Player.play exampleCodec "track" None 5 w in
  Lavalink.draining (Player.node w) = false
  /\ fst r = Normal
  /\ Player.log (snd r)
     = Player.log w ++ [Player.NodeSend (Player.playPayload w "track" None)]
  /\ Player.sendQueue (snd r) = []
  /\ Player.playing (snd r) = negb (Player.paused w)
  /\ Player.paused (snd r) = Player.paused w
  /\ Player.track (snd r) = Some "track"
  /\ Player.lastTrack (snd r) = Player.track w
  /\ Player.playOptions (snd r) = None
  /\ Player.getTimestamp 9 (snd r) = 9 - 5.
Proof.
  split; [reflexivity|].
  apply (@play_on_serving_node exampleCodec "guild" exampleData 0 []
           "track" None 5 9).
  reflexivity.
Defined.

End MoreCases.
